(** * EISH5 Morse translator: codec, timing generator and WAV encoder

    A shallow embedding of [services/morseService.ts] and [constants.ts]
    (with the types of [types.ts]) and of the handlers of [App.tsx], with
    the properties of their specification and further properties of the
    code.

    Conventions of the embedding.
    - A JavaScript string is the list of its code units, [jsstring].  The
      code units are ASCII characters; a character code above 127 stands for
      a code unit that is neither white space, nor a letter with a case
      mapping, nor a key of the code table.
    - A JavaScript object used as a dictionary is an association list in
      property order, read with [get] and written with [set].  Only own
      properties are modelled: the members an object inherits
      ([constructor], [toString], ...) have names made of letters, which no
      single character and no word over dot, dash and space can be.
    - A JavaScript number is an element of a type with the arithmetic of the
      code ([JsNumber]): the timing generator is written once, for any such
      arithmetic, and used at [float] (IEEE 754 binary64, what the program
      runs) and at [Q] (exact arithmetic, in which laws about ratios of
      durations are stated).
    - The WAV encoder threads its [DataView] and write position through a
      state monad whose failure is the [RangeError] of an out-of-bounds
      write.
    - The component of [App.tsx] is a record of what its state hooks and
      refs hold, with the timers of the window and the nodes of the audio
      graph that its handlers reach; a handler is a function on this
      record, and the reading of the audio clock is a parameter. *)

From Stdlib Require Import List String Ascii Bool Arith ZArith QArith Floats Lia.
Import ListNotations.
Close Scope Q_scope.

Set Implicit Arguments.

(** ** JavaScript strings *)

Module JsString.

Definition jsstring : Type := list ascii.

(** String literals of the source are written [(str "...")]. *)
Definition str (s : string) : jsstring := list_ascii_of_string s.

Definition char_eqb (a b : ascii) : bool := Ascii.eqb a b.

Fixpoint eqb (s t : jsstring) : bool :=
  match s, t with
  | [], [] => true
  | a :: s', b :: t' => char_eqb a b && eqb s' t'
  | _, _ => false
  end.

(** White space of [String.prototype.trim] and of the regular expression
    class [\s], on ASCII: tab, line feed, vertical tab, form feed, carriage
    return and space. *)
Definition is_white (c : ascii) : bool :=
  let n := nat_of_ascii c in
  ((9 <=? n) && (n <=? 13)) || (n =? 32).

(** [String.prototype.toUpperCase], on ASCII. *)
Definition upper_char (c : ascii) : ascii :=
  let n := nat_of_ascii c in
  if (97 <=? n) && (n <=? 122) then ascii_of_nat (n - 32) else c.

Definition toUpperCase (s : jsstring) : jsstring := map upper_char s.

(** [s.split('')]: the one-character strings of [s]. *)
Definition split_chars (s : jsstring) : list jsstring :=
  map (fun c => [c]) s.

(** [s.split(sep)] for a one-character separator: never the empty list,
    [''.split(sep)] is [['']]. *)
Fixpoint split (sep : ascii) (s : jsstring) : list jsstring :=
  match s with
  | [] => [[]]
  | c :: s' =>
      if char_eqb c sep then [] :: split sep s'
      else match split sep s' with
           | w :: ws => (c :: w) :: ws
           | [] => [[c]]
           end
  end.

(** [items.join(sep)]. *)
Fixpoint join (sep : jsstring) (items : list jsstring) : jsstring :=
  match items with
  | [] => []
  | [x] => x
  | x :: rest => x ++ sep ++ join sep rest
  end.

Fixpoint trimStart (s : jsstring) : jsstring :=
  match s with
  | [] => []
  | c :: s' => if is_white c then trimStart s' else s
  end.

Fixpoint trimEnd (s : jsstring) : jsstring :=
  match s with
  | [] => []
  | c :: s' =>
      match trimEnd s' with
      | [] => if is_white c then [] else [c]
      | t => c :: t
      end
  end.

(** [s.trim()]. *)
Definition trim (s : jsstring) : jsstring := trimEnd (trimStart s).

(** [s.replace(/\s\/\s/g, ' / ')]: the matches of a three-character pattern
    are taken from left to right and do not overlap. *)
Fixpoint replace_separators (s : jsstring) : jsstring :=
  match s with
  | [] => []
  | a :: t =>
      match t with
      | b :: c :: r =>
          if is_white a && char_eqb b "/" && is_white c
          then str " / " ++ replace_separators r
          else a :: replace_separators t
      | _ => a :: replace_separators t
      end
  end.

End JsString.
Import JsString.

(** ** JavaScript objects used as dictionaries ([MorseDictionary]) *)

Module JsObject.

Definition MorseDictionary : Type := list (jsstring * jsstring).

(** [o[key]]: [None] is [undefined]. *)
Fixpoint get (o : MorseDictionary) (key : jsstring) : option jsstring :=
  match o with
  | [] => None
  | (k, v) :: o' => if JsString.eqb k key then Some v else get o' key
  end.

(** [o[key] = v]: an existing property keeps its place. *)
Fixpoint set (o : MorseDictionary) (key v : jsstring) : MorseDictionary :=
  match o with
  | [] => [(key, v)]
  | (k, w) :: o' =>
      if JsString.eqb k key then (k, v) :: o' else (k, w) :: set o' key v
  end.

(** An object literal [{k1: v1, k2: v2, ...}]. *)
Definition literal (props : list (string * string)) : MorseDictionary :=
  fold_left (fun o p => set o (str (fst p)) (str (snd p))) props [].

(** A key that is a canonical array index: such properties are enumerated
    first, in ascending numeric order. *)
Definition is_digit (c : ascii) : bool :=
  let n := nat_of_ascii c in (48 <=? n) && (n <=? 57).

Definition index_value (key : jsstring) : N :=
  fold_left (fun acc c => (acc * 10 + (N_of_ascii c - 48))%N) key 0%N.

Definition is_index (key : jsstring) : bool :=
  match key with
  | [] => false
  | [c] => is_digit c
  | c :: _ =>
      is_digit c && negb (char_eqb c "0") && forallb is_digit key
      && (index_value key <? 4294967295)%N
  end.

Fixpoint insert_index (p : jsstring * jsstring)
    (l : list (jsstring * jsstring)) : list (jsstring * jsstring) :=
  match l with
  | [] => [p]
  | q :: l' =>
      if (index_value (fst p) <=? index_value (fst q))%N then p :: l
      else q :: insert_index p l'
  end.

(** [Object.entries(o)]. *)
Definition entries (o : MorseDictionary) : list (jsstring * jsstring) :=
  fold_right insert_index [] (filter (fun p => is_index (fst p)) o)
  ++ filter (fun p => negb (is_index (fst p))) o.

(** [x || ''] for [x] a string or [undefined]. *)
Definition or_empty (x : option jsstring) : jsstring :=
  match x with
  | Some v => v
  | None => []
  end.

End JsObject.
Import JsObject.

(** ** constants.ts *)

(** International Morse Code *)
Definition MORSE_MAP : MorseDictionary :=
  literal
    [ ("A", ".-"); ("B", "-..."); ("C", "-.-."); ("D", "-.."); ("E", ".");
      ("F", "..-."); ("G", "--."); ("H", "...."); ("I", ".."); ("J", ".---");
      ("K", "-.-"); ("L", ".-.."); ("M", "--"); ("N", "-."); ("O", "---");
      ("P", ".--."); ("Q", "--.-"); ("R", ".-."); ("S", "..."); ("T", "-");
      ("U", "..-"); ("V", "...-"); ("W", ".--"); ("X", "-..-"); ("Y", "-.--");
      ("Z", "--..");
      ("1", ".----"); ("2", "..---"); ("3", "...--"); ("4", "....-");
      ("5", "....."); ("6", "-...."); ("7", "--..."); ("8", "---..");
      ("9", "----."); ("0", "-----");
      (".", ".-.-.-"); (",", "--..--"); ("?", "..--.."); ("'", ".----.");
      ("!", "-.-.--"); ("/", "-..-."); ("(", "-.--."); (")", "-.--.-");
      ("&", ".-..."); (":", "---..."); (";", "-.-.-."); ("=", "-...-");
      ("+", ".-.-."); ("-", "-....-"); ("_", "..--.-");
      (String (ascii_of_nat 34) EmptyString, ".-..-."); ("$", "...-..-");
      ("@", ".--.-.") ]%string.

(** [Object.entries(MORSE_MAP).reduce((acc, [char, code]) =>
    ({ ...acc, [code]: char }), {})] *)
Definition REVERSE_MORSE_MAP : MorseDictionary :=
  fold_left (fun acc p => set acc (snd p) (fst p)) (entries MORSE_MAP) [].

(** ** services/morseService.ts: the codec *)

(** Translates text to Morse Code *)
Definition textToMorse (text : jsstring) : jsstring :=
  trim
    (replace_separators
       (join (str " ")
          (map (fun char =>
                  if JsString.eqb char (str " ") then str "/"
                  else or_empty (get MORSE_MAP char))
             (split_chars (toUpperCase text))))).

(** Translates Morse Code to Text *)
Definition morseToText (morse : jsstring) : jsstring :=
  join (str " ")
    (map (fun word =>
            join []
              (map (fun code => or_empty (get REVERSE_MORSE_MAP code))
                 (split " " (trim word))))
       (split "/" (trim morse))).

(** ** JavaScript numbers *)

(** The arithmetic the timing generator uses: numeric literals, [+], [*],
    [/] and [<] ([a > b] is [b < a]). *)
Class JsNumber (num : Type) : Type := {
  lit : Z -> num;
  add : num -> num -> num;
  mul : num -> num -> num;
  div : num -> num -> num;
  ltb : num -> num -> bool
}.

(** IEEE 754 binary64, the numbers of the running program.  The literals of
    the source are small non-negative integers. *)
#[export] Instance binary64 : JsNumber float := {
  lit z := PrimFloat.of_uint63 (Uint63.of_Z z);
  add := PrimFloat.add;
  mul := PrimFloat.mul;
  div := PrimFloat.div;
  ltb := PrimFloat.ltb
}.

(** Exact rational arithmetic. *)
#[export] Instance exact : JsNumber Q := {
  lit := inject_Z;
  add := Qplus;
  mul := Qmult;
  div := Qdiv;
  ltb a b := negb (Qle_bool b a)
}.

(** ** types.ts *)

Inductive SoundType : Type :=
| CW          (* "CW Radio Tone" *)
| TELEGRAPH.  (* "Telegraph Sounder" *)

Inductive AlphabetType : Type :=
| LATIN.

Record AppConfig (num : Type) : Type := {
  wpm : num;
  farnsworth : num;
  pitch : num;
  volume : num; (* 0-100 *)
  soundType : SoundType;
  alphabet : AlphabetType
}.

(** ** services/morseService.ts: the timing generator *)

Inductive EventType : Type := on | off.

Record MorseEvent (num : Type) : Type := {
  type : EventType;
  duration : num; (* ms *)
  charIndex : option nat (* Maps back to source text index *)
}.

(** [xs.forEach((x, i) => body)], the body acting on a state. *)
Definition forEach {A S : Type} (xs : list A) (body : A -> nat -> S -> S)
    (s : S) : S :=
  fold_left (fun st ix => body (snd ix) (fst ix) st)
    (combine (seq 0 (List.length xs)) xs) s.

Section Timing.

Context {num : Type} `{JsNumber num}.

(** Timing constants (in units) *)
Definition DOT_UNITS : num := lit 1.
Definition DASH_UNITS : num := lit 3.
Definition INTRA_CHAR_GAP : num := lit 1.
Definition INTER_CHAR_GAP : num := lit 3.
Definition WORD_GAP : num := lit 7.

(** [events.push({ type, duration })] *)
Definition push (events : list (MorseEvent num)) (t : EventType)
    (d : num) : list (MorseEvent num) :=
  events ++ [{| type := t; duration := d; charIndex := None |}].

(** Standard: T = 1200 / WPM *)
Definition unitMs (config : AppConfig num) : num :=
  div (lit 1200) (wpm config).

(** If Farnsworth is slower than WPM, the Inter-Char and Word Gaps are
    extended. *)
Definition farnsworthUnitMs (config : AppConfig num) : num :=
  if ltb (farnsworth config) (wpm config) && ltb (lit 0) (farnsworth config)
  then div (lit 1200) (farnsworth config)
  else unitMs config.

(** Generates a sequence of timing events for playback *)
Definition generateTimingSequence (morse : jsstring)
    (config : AppConfig num) : list (MorseEvent num) :=
  let events := [] in
  let unitMs := unitMs config in
  let farnsworthUnitMs := farnsworthUnitMs config in
  let words := split "/" morse in
  forEach words (fun word wIdx events =>
    let chars := split " " (trim word) in
    let events :=
      forEach chars (fun char cIdx events =>
        if JsString.eqb char [] then events
        else
          let signals := split_chars char in
          let events :=
            forEach signals (fun sig sIdx events =>
              (* Signal (On) *)
              let duration :=
                if JsString.eqb sig (str "-") then mul DASH_UNITS unitMs
                else mul DOT_UNITS unitMs in
              let events := push events on duration in
              (* Gap (Off) *)
              if sIdx <? List.length signals - 1
              then push events off (mul INTRA_CHAR_GAP unitMs)
              else events) events in
          (* Inter-character gap (unless last char of word) *)
          if cIdx <? List.length chars - 1
          then push events off (mul INTER_CHAR_GAP farnsworthUnitMs)
          else events) events in
    (* Word gap (unless last word) *)
    if wIdx <? List.length words - 1
    then push events off (mul WORD_GAP farnsworthUnitMs)
    else events) events.

(** [sequence.reduce((acc, e) => acc + e.duration, 0)] of
    [renderAudioToWav]. *)
Definition totalDurationMs (sequence : list (MorseEvent num)) : num :=
  fold_left (fun acc e => add acc (duration e)) sequence (lit 0).

End Timing.

(** How a call completes: with a value, or with a thrown error. *)
Inductive Completion (A : Type) : Type :=
| Returns (value : A)
| Throws (error : string).

(** A call of [generateTimingSequence]: its body has no [throw], and
    [split], [trim], [forEach], [push] and the arithmetic throw nothing on
    a string and numbers. *)
Definition call_generateTimingSequence {num : Type} `{JsNumber num}
    (morse : jsstring) (config : AppConfig num)
    : Completion (list (MorseEvent num)) :=
  Returns (generateTimingSequence morse config).

(** constants.ts *)
Definition DEFAULT_CONFIG : AppConfig float := {|
  wpm := 20%float;
  farnsworth := 20%float;
  pitch := 550%float;
  volume := 80%float;
  soundType := CW;
  alphabet := LATIN
|}.

(** ** services/morseService.ts: the WAV encoder *)

(** The [AudioBuffer] handed to the encoder.  [numberOfChannels] is the
    number of its channels; in a buffer the audio context made, each channel
    holds [length] samples.  The sample rate is a whole number of hertz in
    every buffer the program renders (44100). *)
Module AudioBuffer.

Record t : Type := {
  sampleRate : Z;
  length : nat;
  channelData : list (list float)
}.

Definition numberOfChannels (abuffer : t) : nat :=
  List.length (channelData abuffer).

(** [abuffer.getChannelData(i)], for [i < numberOfChannels]. *)
Definition getChannelData (abuffer : t) (i : nat) : list float :=
  nth i (channelData abuffer) [].

(** The buffer of one channel that an [OfflineAudioContext(1, n, rate)]
    renders. *)
Definition mono (rate : Z) (samples : list float) : t :=
  {| sampleRate := rate; length := List.length samples;
     channelData := [samples] |}.

End AudioBuffer.

Module JsMath.

(** [Math.min] and [Math.max] of two numbers: [NaN] if either is, and
    [-0] below [+0]. *)
Definition min (a b : float) : float :=
  if PrimFloat.is_nan a || PrimFloat.is_nan b then PrimFloat.nan
  else if PrimFloat.ltb a b then a
  else if PrimFloat.ltb b a then b
  else if PrimFloat.get_sign a then a else b.

Definition max (a b : float) : float :=
  if PrimFloat.is_nan a || PrimFloat.is_nan b then PrimFloat.nan
  else if PrimFloat.ltb a b then b
  else if PrimFloat.ltb b a then a
  else if PrimFloat.get_sign a then b else a.

(** The integer part of a finite number, towards zero; 0 for [NaN] and the
    infinities. *)
Definition truncate (x : float) : Z :=
  match Prim2SF x with
  | S754_finite s m e =>
      let magnitude :=
        if (0 <=? e)%Z then (Zpos m * 2 ^ e)%Z
        else (Zpos m / 2 ^ (- e))%Z in
      if s then (- magnitude)%Z else magnitude
  | _ => 0%Z
  end.

(** [x | 0]: [ToInt32]. *)
Definition ToInt32 (x : float) : Z :=
  ((truncate x + 2 ^ 31) mod 2 ^ 32 - 2 ^ 31)%Z.

End JsMath.

(** A [DataView] on an [ArrayBuffer]: its bytes, each in [0, 255]. *)
Module DataView.

Definition t : Type := list Z.

(** [new ArrayBuffer(length)]: zero-filled. *)
Definition alloc (length : nat) : t := repeat 0%Z length.

(** The [n] bytes of [v], least significant first. *)
Fixpoint little_endian (n : nat) (v : Z) : list Z :=
  match n with
  | O => []
  | S n' => (v mod 256)%Z :: little_endian n' (v / 256)%Z
  end.

Fixpoint overwrite (bs : list Z) (view : t) : option t :=
  match bs, view with
  | [], _ => Some view
  | b :: bs', _ :: view' => option_map (cons b) (overwrite bs' view')
  | _ :: _, [] => None
  end.

(** Writing bytes at an offset: [None] is the [RangeError] of a write that
    does not fit. *)
Fixpoint store (byteOffset : nat) (bs : list Z) (view : t) : option t :=
  match byteOffset with
  | O => overwrite bs view
  | S k =>
      match view with
      | b :: view' => option_map (cons b) (store k bs view')
      | [] => None
      end
  end.

(** [view.setUint16(byteOffset, value, true)], [view.setUint32(...)] and
    [view.setInt16(...)]: the value is taken modulo 2^16 or 2^32 and
    written least significant byte first. *)
Definition setUint16 (byteOffset : nat) (value : Z) (view : t) : option t :=
  store byteOffset (little_endian 2 (value mod 2 ^ 16)) view.

Definition setUint32 (byteOffset : nat) (value : Z) (view : t) : option t :=
  store byteOffset (little_endian 4 (value mod 2 ^ 32)) view.

Definition setInt16 (byteOffset : nat) (value : Z) (view : t) : option t :=
  store byteOffset (little_endian 2 (value mod 2 ^ 16)) view.

(** Reading back, least significant byte first. *)
Fixpoint from_little_endian (bs : list Z) : Z :=
  match bs with
  | [] => 0
  | b :: bs' => (b + 256 * from_little_endian bs')%Z
  end.

Definition getUint16 (byteOffset : nat) (view : t) : Z :=
  from_little_endian (firstn 2 (skipn byteOffset view)).

Definition getUint32 (byteOffset : nat) (view : t) : Z :=
  from_little_endian (firstn 4 (skipn byteOffset view)).

Definition getInt16 (byteOffset : nat) (view : t) : Z :=
  let u := getUint16 byteOffset view in
  if (u <? 2 ^ 15)%Z then u else (u - 2 ^ 16)%Z.

End DataView.

(** The state of [bufferToWav]: the view and the variables [pos] and
    [offset]; a step fails with the [RangeError] of the view. *)
Module WavWriter.

Record state : Type := {
  view : DataView.t;
  pos : nat;
  offset : nat
}.

Definition M (A : Type) : Type := state -> option (A * state).

Definition ret {A : Type} (a : A) : M A := fun st => Some (a, st).

Definition bind {A B : Type} (m : M A) (k : A -> M B) : M B :=
  fun st =>
    match m st with
    | Some (a, st') => k a st'
    | None => None
    end.

Definition get_pos : M nat := fun st => Some (pos st, st).

Definition get_offset : M nat := fun st => Some (offset st, st).

Definition set_pos (p : nat) : M unit :=
  fun st => Some (tt, {| view := view st; pos := p; offset := offset st |}).

Definition set_offset (o : nat) : M unit :=
  fun st => Some (tt, {| view := view st; pos := pos st; offset := o |}).

(** A write on the view. *)
Definition on_view (write : DataView.t -> option DataView.t) : M unit :=
  fun st =>
    match write (view st) with
    | Some v => Some (tt, {| view := v; pos := pos st; offset := offset st |})
    | None => None
    end.

(** [for (x of xs) body], in order. *)
Fixpoint for_each {A : Type} (xs : list A) (body : A -> M unit) : M unit :=
  match xs with
  | [] => ret tt
  | x :: xs' => bind (body x) (fun _ => for_each xs' body)
  end.

End WavWriter.

Import WavWriter.

Notation "x <- m ;; k" := (bind m (fun x => k))
  (at level 61, m at next level, right associativity).
Notation "m ;; k" := (bind m (fun _ => k))
  (at level 61, right associativity).

(** [function setUint16(data) { view.setUint16(pos, data, true); pos += 2; }] *)
Definition setUint16 (data : Z) : M unit :=
  p <- get_pos ;;
  on_view (DataView.setUint16 p data) ;;
  set_pos (p + 2).

(** [function setUint32(data) { view.setUint32(pos, data, true); pos += 4; }] *)
Definition setUint32 (data : Z) : M unit :=
  p <- get_pos ;;
  on_view (DataView.setUint32 p data) ;;
  set_pos (p + 4).

(** The two statements that turn a sample into a 16-bit integer:
    [sample = Math.max(-1, Math.min(1, channels[i][pos])); // clamp]
    [sample = (0.5 + sample < 0 ? sample * 32768 : sample * 32767)|0;] *)
Definition clamp (x : float) : float := JsMath.max (-1) (JsMath.min 1 x).

Definition scale (sample : float) : Z :=
  JsMath.ToInt32
    (if PrimFloat.ltb (0.5 + sample) 0 then (sample * 32768)%float
     else (sample * 32767)%float).

(** [channels[i][pos]]: reading a [Float32Array] past its end gives
    [undefined], which [Math.min] takes for [NaN]. *)
Definition sample_at (channels : list (list float)) (i p : nat) : float :=
  nth p (nth i channels []) PrimFloat.nan.

(** write WAVE header *)
Definition write_header (abuffer : AudioBuffer.t) (numOfChan length : nat)
    : M unit :=
  setUint32 0x46464952 ;; (* "RIFF" *)
  setUint32 (Z.of_nat length - 8) ;; (* file length - 8 *)
  setUint32 0x45564157 ;; (* "WAVE" *)
  setUint32 0x20746d66 ;; (* "fmt " chunk *)
  setUint32 16 ;; (* length = 16 *)
  setUint16 1 ;; (* PCM (uncompressed) *)
  setUint16 (Z.of_nat numOfChan) ;;
  setUint32 (AudioBuffer.sampleRate abuffer) ;;
  setUint32 (AudioBuffer.sampleRate abuffer * 2 * Z.of_nat numOfChan) ;;
    (* avg. bytes/sec *)
  setUint16 (Z.of_nat numOfChan * 2) ;; (* block-align *)
  setUint16 16 ;; (* 16-bit (hardcoded in this example) *)
  setUint32 0x61746164 ;; (* "data" - chunk *)
  p <- get_pos ;;
  setUint32 (Z.of_nat length - Z.of_nat p - 4). (* chunk length *)

(** write interleaved data: [while (pos < abuffer.length) { for (i = 0;
    i < numOfChan; i++) { ... offset += 2; } pos++; }].  The loop goes on
    from the [pos] the header left and counts it up to the length of the
    buffer. *)
Definition write_data (abuffer : AudioBuffer.t) (numOfChan : nat)
    (channels : list (list float)) : M unit :=
  start <- get_pos ;;
  for_each (seq start (AudioBuffer.length abuffer - start)) (fun p =>
    for_each (seq 0 numOfChan) (fun i =>
      let sample := clamp (sample_at channels i p) in
      let sample := scale sample in
      o <- get_offset ;;
      on_view (DataView.setInt16 (44 + o) sample) ;;
      set_offset (o + 2)) ;;
    set_pos (p + 1)).

(** Helper to convert AudioBuffer to WAV Blob: the bytes of the blob. *)
Definition bufferToWav (abuffer : AudioBuffer.t) : option (list Z) :=
  let numOfChan := AudioBuffer.numberOfChannels abuffer in
  let length := AudioBuffer.length abuffer * numOfChan * 2 + 44 in
  let channels :=
    map (AudioBuffer.getChannelData abuffer) (seq 0 numOfChan) in
  match (write_header abuffer numOfChan length ;;
         write_data abuffer numOfChan channels)
          {| view := DataView.alloc length; pos := 0; offset := 0 |} with
  | Some (_, st) => Some (view st)
  | None => None
  end.

(** ** Auxiliary definitions of the statements and proofs *)

(** Appending to the last piece. *)
Fixpoint app_last (l : list jsstring) (x : jsstring) : list jsstring :=
  match l with
  | [] => []
  | [w] => [w ++ x]
  | w :: l' => w :: app_last l' x
  end.

(** A character that is the space if it is white space at all. *)
Definition white_is_space (c : ascii) : Prop :=
  is_white c = true -> c = " "%char.

Definition dot_or_dash (c : ascii) : bool :=
  char_eqb c "." || char_eqb c "-".

(** What is checked of each property [key: code] of [MORSE_MAP]: the key is
    one character and not the space, the code is a non-empty word of dots
    and dashes, and [REVERSE_MORSE_MAP] sends the code back to the key. *)
Definition entry_ok (p : jsstring * jsstring) : bool :=
  match fst p with
  | [c] => negb (char_eqb c " ")
  | _ => false
  end
  && negb (JsString.eqb (snd p) [])
  && forallb dot_or_dash (snd p)
  && JsString.eqb (or_empty (get REVERSE_MORSE_MAP (snd p))) (fst p).



(** The code of one character of the uppercased text, as [textToMorse] maps
    it: the separator for a space, nothing for a character without code. *)
Definition char_code (c : ascii) : jsstring :=
  if char_eqb c " " then str "/" else or_empty (get MORSE_MAP [c]).

(** The domain of the code table: the keys of [MORSE_MAP] and the space. *)
Definition in_domain (c : ascii) : bool :=
  char_eqb c " "
  || match get MORSE_MAP [c] with Some _ => true | None => false end.

Definition strip_unmapped (s : jsstring) : jsstring := filter in_domain s.

(** The non-empty codes of a word of a code string. *)
Definition codes_of (word : jsstring) : list jsstring :=
  filter (fun code => negb (JsString.eqb code [])) (split " " word).

(** The codes of a code string, word by word. *)
Definition words_of (morse : jsstring) : list (list jsstring) :=
  map codes_of (split "/" morse).

(** The codes of a text, word by word: what [words_of] finds in the code
    string of the text. *)
Fixpoint groups (u : jsstring) : list (list jsstring) :=
  match u with
  | [] => [[]]
  | c :: r =>
      if char_eqb c " " then [] :: groups r
      else match get MORSE_MAP [c] with
           | Some code =>
               match groups r with
               | g :: gs => (code :: g) :: gs
               | [] => [[code]]
               end
           | None => groups r
           end
  end.

Definition decode_codes (codes : list jsstring) : jsstring :=
  List.concat (map (fun code => or_empty (get REVERSE_MORSE_MAP code)) codes).

(** Does a string begin, or end, with white space? *)
Definition starts_white (s : jsstring) : bool :=
  match s with
  | c :: _ => is_white c
  | [] => false
  end.

Fixpoint ends_white (s : jsstring) : bool :=
  match s with
  | [] => false
  | [c] => is_white c
  | _ :: s' => ends_white s'
  end.

(** Are two neighbours in a list of tokens both the separator token? *)
Fixpoint adjacent_separators (tokens : list jsstring) : bool :=
  match tokens with
  | a :: (b :: _) as rest =>
      (JsString.eqb a (str "/") && JsString.eqb b (str "/"))
      || adjacent_separators rest
  | _ => false
  end.

(** [body x more] for each [x] of a list in turn, [more] telling whether
    another element follows. *)
Fixpoint flat_map_more {A B : Type} (body : A -> bool -> list B)
    (xs : list A) : list B :=
  match xs with
  | [] => []
  | [x] => body x false
  | x :: rest => body x true ++ flat_map_more body rest
  end.

(** What a timing event stands for: a signal, with its symbol, or one of
    the three gaps. *)
Inductive Segment : Type :=
| Signal (sig : ascii)
| IntraGap
| InterGap
| WordGap.

(** The segments of a code string: those of each symbol of each non-empty
    code of each word, with the gaps between them. *)
Definition code_segments (char : jsstring) : list Segment :=
  flat_map_more
    (fun sig more => Signal sig :: if more then [IntraGap] else []) char.

Definition word_segments (chars : list jsstring) : list Segment :=
  flat_map_more
    (fun char more =>
       if JsString.eqb char [] then []
       else code_segments char ++ if more then [InterGap] else [])
    chars.

Definition segments (morse : jsstring) : list Segment :=
  flat_map_more
    (fun word more =>
       word_segments (split " " (trim word))
       ++ if more then [WordGap] else [])
    (split "/" morse).

(** The symbols of a code string, in order. *)
Definition symbols (morse : jsstring) : list ascii :=
  flat_map (fun word => List.concat (split " " (trim word)))
    (split "/" morse).

Definition event {num : Type} (t : EventType) (d : num) : MorseEvent num :=
  {| type := t; duration := d; charIndex := None |}.

Definition is_on {num : Type} (e : MorseEvent num) : bool :=
  match type e with on => true | off => false end.

Section Render.

Context {num : Type} `{JsNumber num}.

(** The event of a segment, for a unit [u] of the signals and a unit [g] of
    the spacing. *)
Definition render (u g : num) (seg : Segment) : MorseEvent num :=
  match seg with
  | Signal sig =>
      event on (if char_eqb sig "-" then mul (lit 3) u else mul (lit 1) u)
  | IntraGap => event off (mul (lit 1) u)
  | InterGap => event off (mul (lit 3) g)
  | WordGap => event off (mul (lit 7) g)
  end.

End Render.

(** A code string of separator tokens and white space only. *)
Definition separator_or_white (c : ascii) : bool :=
  char_eqb c "/" || is_white c.

Definition count_separators (morse : jsstring) : nat :=
  List.length (filter (fun c => char_eqb c "/") morse).

Definition segment_type (seg : Segment) : EventType :=
  match seg with
  | Signal _ => on
  | _ => off
  end.

(** A configuration with another speed. *)
Definition with_wpm {num : Type} (config : AppConfig num) (w : num)
    : AppConfig num :=
  {| wpm := w; farnsworth := farnsworth config; pitch := pitch config;
     volume := volume config; soundType := soundType config;
     alphabet := alphabet config |}.



(** The invariant of the data loop of [bufferToWav]: the size of the view,
    its first 44 bytes, and room for the samples still to be written. *)
Definition writing (size : nat) (header : list Z) (left : nat)
    (st : state) : Prop :=
  List.length (view st) = size
  /\ firstn 44 (view st) = header
  /\ 44 + offset st + 2 * left <= size.

(** The character codes of a chunk tag. *)
Definition char_codes (tag : string) : list Z :=
  map (fun c => Z.of_nat (nat_of_ascii c)) (str tag).

(** The 44 bytes that [write_header] writes. *)
Definition wav_header (sampleRate numOfChan length : Z) : list Z :=
  List.concat
    [ DataView.little_endian 4 (0x46464952 mod 2 ^ 32);
      DataView.little_endian 4 ((length - 8) mod 2 ^ 32);
      DataView.little_endian 4 (0x45564157 mod 2 ^ 32);
      DataView.little_endian 4 (0x20746d66 mod 2 ^ 32);
      DataView.little_endian 4 (16 mod 2 ^ 32);
      DataView.little_endian 2 (1 mod 2 ^ 16);
      DataView.little_endian 2 (numOfChan mod 2 ^ 16);
      DataView.little_endian 4 (sampleRate mod 2 ^ 32);
      DataView.little_endian 4 ((sampleRate * 2 * numOfChan) mod 2 ^ 32);
      DataView.little_endian 2 ((numOfChan * 2) mod 2 ^ 16);
      DataView.little_endian 2 (16 mod 2 ^ 16);
      DataView.little_endian 4 (0x61746164 mod 2 ^ 32);
      DataView.little_endian 4 ((length - 40 - 4) mod 2 ^ 32) ]%Z.

(** The speeds the sliders of the application offer: the whole numbers
    from 5 to 60. *)
Definition slider_speeds : list Z := map Z.of_nat (seq 5 56).

(** In binary64, is every gap between characters and between words
    strictly longer at the Farnsworth speed [f] than at the speed [w]? *)
Definition gaps_longer_binary64 (f w : Z) : bool :=
  let u : float := div (lit 1200) (lit w) in
  let g : float := div (lit 1200) (lit f) in
  PrimFloat.ltb (duration (render u u InterGap))
    (duration (render u g InterGap))
  && PrimFloat.ltb (duration (render u u WordGap))
       (duration (render u g WordGap)).

(** 20 words per minute with a Farnsworth speed of 10, in exact
    arithmetic. *)
Definition exact_20_10 : AppConfig Q :=
  {| wpm := 20%Q; farnsworth := 10%Q; pitch := 550%Q; volume := 80%Q;
     soundType := CW; alphabet := LATIN |}.

(** ** Further definitions: the codec *)

(** The characters of a code string: dot, dash, space and separator. *)
Definition code_char (c : ascii) : bool :=
  char_eqb c "." || char_eqb c "-" || char_eqb c " " || char_eqb c "/".

Definition count_spaces (text : jsstring) : nat :=
  List.length (filter (fun c => char_eqb c " ") text).

(** ** Further definitions: the timing generator *)

(** Are two neighbours of a list both [p]?  Does the list begin, or end,
    with a [p]? *)
Fixpoint adjacent {A : Type} (p : A -> bool) (l : list A) : bool :=
  match l with
  | a :: (b :: _) as rest => (p a && p b) || adjacent p rest
  | _ => false
  end.

Definition begins_with {A : Type} (p : A -> bool) (l : list A) : bool :=
  match l with
  | a :: _ => p a
  | [] => false
  end.

Fixpoint ends_with {A : Type} (p : A -> bool) (l : list A) : bool :=
  match l with
  | [] => false
  | [a] => p a
  | _ :: rest => ends_with p rest
  end.

Definition is_signal (seg : Segment) : bool :=
  match seg with
  | Signal _ => true
  | _ => false
  end.

Definition is_word_gap (seg : Segment) : bool :=
  match seg with
  | WordGap => true
  | _ => false
  end.

Definition count_word_gaps (segs : list Segment) : nat :=
  List.length (filter is_word_gap segs).

(** The length of a list of segments in units of the signals (a dot and a
    gap inside a character 1, a dash 3) and in units of the spacing (a gap
    between characters 3, between words 7). *)
Definition signal_units (seg : Segment) : Z :=
  match seg with
  | Signal sig => if char_eqb sig "-" then 3 else 1
  | IntraGap => 1
  | InterGap | WordGap => 0
  end.

Definition spacing_units (seg : Segment) : Z :=
  match seg with
  | InterGap => 3
  | WordGap => 7
  | Signal _ | IntraGap => 0
  end.

Definition total_units (units : Segment -> Z) (segs : list Segment) : Z :=
  fold_right (fun seg n => (units seg + n)%Z) 0%Z segs.

(** ** Further definitions: the WAV encoder *)

(** The two bytes written for a sample. *)
Definition pcm16 (sample : float) : list Z :=
  DataView.little_endian 2 (scale (clamp sample) mod 2 ^ 16).

(** The bytes of the frames from [start] on: for each position the sample
    of each channel in turn. *)
Definition frames_data (channels : list (list float)) (numOfChan : nat)
    (start length : nat) : list Z :=
  flat_map
    (fun p =>
       flat_map (fun i => pcm16 (sample_at channels i p)) (seq 0 numOfChan))
    (seq start (length - start)).

(** The invariant of the data loop on the contents: the view is the header,
    the data written so far and zeros, and [offset] counts the data. *)
Definition written (header data : list Z) (zeros : nat) (st : state)
    : Prop :=
  view st = header ++ data ++ repeat 0%Z zeros
  /\ 44 + offset st = List.length header + List.length data.

(** ** services/morseService.ts: the offline rendering *)

From Stdlib Require Import Qround Lqa.

(** The rest of the arithmetic of the program: [-], [Math.min] and
    [Math.ceil]. *)
Class JsMathOps (num : Type) : Type := {
  sub : num -> num -> num;
  math_min : num -> num -> num;
  math_ceil : num -> num
}.

(** [Math.ceil] in binary64: a number with a non-negative exponent is
    whole; otherwise the mantissa is cut at the binary point, and a
    negative number above -1 gives [-0]. *)
Definition ceil_binary64 (x : float) : float :=
  match Prim2SF x with
  | S754_finite s m e =>
      if (0 <=? e)%Z then x
      else
        let q := (Zpos m / 2 ^ (- e))%Z in
        let r := (Zpos m mod 2 ^ (- e))%Z in
        if s then PrimFloat.opp (PrimFloat.of_uint63 (Uint63.of_Z q))
        else PrimFloat.of_uint63
               (Uint63.of_Z (if (r =? 0)%Z then q else q + 1))
  | _ => x
  end.

#[export] Instance binary64_math : JsMathOps float := {
  sub := PrimFloat.sub;
  math_min := JsMath.min;
  math_ceil := ceil_binary64
}.

#[export] Instance exact_math : JsMathOps Q := {
  sub := Qminus;
  math_min a b := if Qle_bool a b then a else b;
  math_ceil q := inject_Z (Qceiling q)
}.

Inductive OscillatorType : Type := sine | square.

(** An oscillator of the offline context, with the times of its [start]
    and [stop] calls. *)
Record Oscillator (num : Type) : Type := {
  osc_type : OscillatorType;
  frequency : num;
  startTime : num;
  stopTime : num
}.

(** A call on the [gain] parameter of the gain node. *)
Inductive GainCall (num : Type) : Type :=
| setValueAtTime (value time : num)
| linearRampToValueAtTime (value time : num).

(** What [renderAudioToWav] has made of the offline context when it calls
    [startRendering]: the context of one channel, [totalFrames] frames and
    the sample rate, the value of the gain, the oscillators connected to
    the gain node and the calls on the gain, in the order of the calls. *)
Record OfflineSetup (num : Type) : Type := {
  totalFrames : num;
  contextSampleRate : num;
  gainValue : num;
  oscillators : list (Oscillator num);
  gainCalls : list (GainCall num)
}.

Record RenderLoop (num : Type) : Type := {
  loop_oscillators : list (Oscillator num);
  loop_gainCalls : list (GainCall num);
  currentTime : num
}.

Section Rendering.

Context {num : Type} `{JsNumber num} `{JsMathOps num}.

(** The body of [sequence.forEach(event => ...)].  The literals 0.005 and
    0.03 are the quotients 5 / 1000 and 3 / 100, in binary64 too. *)
Definition schedule_event (config : AppConfig num)
    (event : MorseEvent num) (st : RenderLoop num) : RenderLoop num :=
  let durationSec := div (duration event) (lit 1000) in
  let now := currentTime st in
  let st :=
    match type event with
    | on =>
        match soundType config with
        | CW =>
            (* Anti-pop envelope *)
            let attack := div (lit 5) (lit 1000) in
            let release := div (lit 5) (lit 1000) in
            let level := div (volume config) (lit 100) in
            {| loop_oscillators :=
                 loop_oscillators st
                 ++ [{| osc_type := sine; frequency := pitch config;
                        startTime := now;
                        stopTime := add now durationSec |}];
               loop_gainCalls :=
                 loop_gainCalls st
                 ++ [setValueAtTime (lit 0) now;
                     linearRampToValueAtTime level (add now attack);
                     setValueAtTime level
                       (sub (add now durationSec) release);
                     linearRampToValueAtTime (lit 0) (add now durationSec)];
               currentTime := now |}
        | TELEGRAPH =>
            (* Telegraph click simulation (simplified noise burst) *)
            {| loop_oscillators :=
                 loop_oscillators st
                 ++ [{| osc_type := square; frequency := lit 100;
                        startTime := now;
                        stopTime :=
                          add now
                            (math_min (div (lit 3) (lit 100)) durationSec) |}];
               loop_gainCalls := loop_gainCalls st;
               currentTime := now |}
        end
    | off => st
    end in
  {| loop_oscillators := loop_oscillators st;
     loop_gainCalls := loop_gainCalls st;
     currentTime := add now durationSec |}.

(** Renders audio to a Blob (WAV) for downloading: up to the call of
    [startRendering]. *)
Definition renderAudioToWav_setup (morse : jsstring)
    (config : AppConfig num) : OfflineSetup num :=
  let sequence := generateTimingSequence morse config in
  let totalDurationMs := totalDurationMs sequence in
  let sampleRate := lit 44100 in
  (* Add 1s padding *)
  let totalFrames :=
    math_ceil
      (div (mul (add totalDurationMs (lit 500)) sampleRate) (lit 1000)) in
  let st :=
    forEach sequence (fun event _ st => schedule_event config event st)
      {| loop_oscillators := []; loop_gainCalls := [];
         currentTime := lit 0 |} in
  {| totalFrames := totalFrames;
     contextSampleRate := sampleRate;
     gainValue := div (volume config) (lit 100);
     oscillators := loop_oscillators st;
     gainCalls := loop_gainCalls st |}.

End Rendering.


Definition gain_time {num : Type} (call : GainCall num) : num :=
  match call with
  | setValueAtTime _ time => time
  | linearRampToValueAtTime _ time => time
  end.

(** Times in non-decreasing order between two bounds. *)
Fixpoint ascending (lo : Q) (times : list Q) (hi : Q) : Prop :=
  match times with
  | [] => (lo <= hi)%Q
  | t :: rest => (lo <= t)%Q /\ ascending t rest hi
  end.

(** 240 words per minute, in exact arithmetic: a dot of 5 ms. *)
Definition exact_240 : AppConfig Q :=
  {| wpm := 240%Q; farnsworth := 240%Q; pitch := 550%Q; volume := 80%Q;
     soundType := CW; alphabet := LATIN |}.


(** ** App.tsx: options, the two text boxes and the playback *)

Module App.

(** types.ts *)
Record PlayOptions : Type := {
  enableSound : bool;
  enableLight : bool;
  enableVibrate : bool;
  loop : bool
}.

Record PlaybackState (num : Type) : Type := {
  isPlaying : bool;
  isPaused : bool;
  progress : num; (* 0 to 1 *)
  currentIndex : nat
}.

(** [keyof PlayOptions] *)
Inductive OptionKey : Type :=
| key_enableSound
| key_enableLight
| key_enableVibrate
| key_loop.

(** [{ ...prev, [key]: !prev[key] }] *)
Definition flip (key : OptionKey) (prev : PlayOptions) : PlayOptions :=
  match key with
  | key_enableSound =>
      {| enableSound := negb (enableSound prev);
         enableLight := enableLight prev;
         enableVibrate := enableVibrate prev; loop := loop prev |}
  | key_enableLight =>
      {| enableSound := enableSound prev;
         enableLight := negb (enableLight prev);
         enableVibrate := enableVibrate prev; loop := loop prev |}
  | key_enableVibrate =>
      {| enableSound := enableSound prev; enableLight := enableLight prev;
         enableVibrate := negb (enableVibrate prev); loop := loop prev |}
  | key_loop =>
      {| enableSound := enableSound prev; enableLight := enableLight prev;
         enableVibrate := enableVibrate prev; loop := negb (loop prev) |}
  end.

(** The update of [toggleOption]: [setOptions(prev => ...)]. *)
Definition toggleOption (key : OptionKey) (prev : PlayOptions)
    : PlayOptions :=
  let next := flip key prev in
  (* Constraint: At least one of Sound or Light must be enabled *)
  match key with
  | key_enableSound | key_enableLight =>
      if negb (enableSound next) && negb (enableLight next)
      then prev (* If trying to turn off the last active one, prevent it *)
      else next
  | _ => next
  end.

(** The options the application starts with. *)
Definition initial_options : PlayOptions :=
  {| enableSound := true; enableLight := true; enableVibrate := false;
     loop := false |}.

Inductive InputMode : Type := text_mode | morse_mode.

(** What a timer does when it fires: the callback of an event, the
    callback that turns the light off at the end of a signal, and the
    handler of the end of the sequence. *)
Inductive Callback (num : Type) : Type :=
| event_callback (event : MorseEvent num)
| light_off_callback
| end_callback.

(** A voice of the live playback: an oscillator with its own gain node,
    connected to the gain node of its session. *)
Record Voice (num : Type) : Type := {
  voice_oscillator : Oscillator num;
  voice_gainValue : option num;
  voice_gainCalls : list (GainCall num);
  voice_session : nat
}.

(** The state of the component (what [useState] and [useRef] hold), with
    what the handlers reach of the page: the timers of [window], the gain
    nodes connected to the destination of the audio context, the voices
    scheduled on it, and the vibration. *)
Record Page (num : Type) : Type := {
  inputMode : InputMode;
  inputText : jsstring;
  morseText : jsstring;
  config : AppConfig num;
  options : PlayOptions;
  playback : PlaybackState num;
  isLightActive : bool;
  activeGainNode : option nat;      (* activeGainNodeRef.current *)
  timeoutRefs : list nat;           (* timeoutRefs.current *)
  nextTimeoutId : nat;
  pendingTimeouts : list (nat * (num * Callback num));
  nextGainNode : nat;
  connectedGains : list nat;
  voices : list (Voice num);
  canVibrate : bool;                (* navigator.vibrate is defined *)
  vibration : option num
}.

Section Handlers.

Context {num : Type} `{JsNumber num} `{JsMathOps num}.

Definition with_playback (page : Page num) (pb : PlaybackState num)
    (light : bool) : Page num :=
  {| inputMode := inputMode page; inputText := inputText page;
     morseText := morseText page; config := config page;
     options := options page; playback := pb; isLightActive := light;
     activeGainNode := activeGainNode page;
     timeoutRefs := timeoutRefs page;
     nextTimeoutId := nextTimeoutId page;
     pendingTimeouts := pendingTimeouts page;
     nextGainNode := nextGainNode page;
     connectedGains := connectedGains page; voices := voices page;
     canVibrate := canVibrate page; vibration := vibration page |}.

Definition with_texts (page : Page num) (mode : InputMode)
    (input morse : jsstring) : Page num :=
  {| inputMode := mode; inputText := input; morseText := morse;
     config := config page; options := options page;
     playback := playback page; isLightActive := isLightActive page;
     activeGainNode := activeGainNode page;
     timeoutRefs := timeoutRefs page;
     nextTimeoutId := nextTimeoutId page;
     pendingTimeouts := pendingTimeouts page;
     nextGainNode := nextGainNode page;
     connectedGains := connectedGains page; voices := voices page;
     canVibrate := canVibrate page; vibration := vibration page |}.

(** [window.clearTimeout(id)] *)
Definition clearTimeout (id : nat)
    (pending : list (nat * (num * Callback num)))
    : list (nat * (num * Callback num)) :=
  filter (fun t => negb (fst t =? id)) pending.

Definition stopPlayback (page : Page num) : Page num :=
  {| inputMode := inputMode page; inputText := inputText page;
     morseText := morseText page; config := config page;
     options := options page;
     (* 4. Reset UI State *)
     playback := {| isPlaying := false; isPaused := false;
                    progress := lit 0; currentIndex := 0 |};
     isLightActive := false;
     (* 1. Audio Stop: Disconnect the master gain for the current session *)
     activeGainNode := None;
     (* 2. Clear all timeouts *)
     timeoutRefs := [];
     nextTimeoutId := nextTimeoutId page;
     pendingTimeouts :=
       fold_left (fun pending id => clearTimeout id pending)
         (timeoutRefs page) (pendingTimeouts page);
     nextGainNode := nextGainNode page;
     connectedGains :=
       match activeGainNode page with
       | Some g => filter (fun n => negb (n =? g)) (connectedGains page)
       | None => connectedGains page
       end;
     voices := voices page;
     canVibrate := canVibrate page;
     (* 3. Stop Vibration *)
     vibration := if canVibrate page then None else vibration page |}.

Definition handleSwapMode (page : Page num) : Page num :=
  let page' := stopPlayback page in
  (* Swap the content *)
  let currentInput := inputText page in
  let currentMorse := morseText page in
  match inputMode page with
  | text_mode => with_texts page' morse_mode currentMorse currentInput
  | morse_mode => with_texts page' text_mode currentMorse currentInput
  end.

Definition handleMainInputChange (val : jsstring) (page : Page num)
    : Page num :=
  let page' := stopPlayback page in
  match inputMode page with
  | text_mode => with_texts page' text_mode val (textToMorse val)
  | morse_mode => with_texts page' morse_mode val (morseToText val)
  end.

Definition handleSecondaryDisplayChange (val : jsstring) (page : Page num)
    : Page num :=
  let page' := stopPlayback page in
  (* If user edits the bottom box, update the top box accordingly *)
  match inputMode page with
  | text_mode => with_texts page' text_mode (morseToText val) val
  | morse_mode => with_texts page' morse_mode (textToMorse val) val
  end.

(** Decide which text to play. We always play the Morse representation. *)
Definition stringToPlay (page : Page num) : jsstring :=
  match inputMode page with
  | text_mode => morseText page
  | morse_mode => inputText page
  end.

(** The variables of one call of [playSequence] that its loop changes:
    [currentTimeMs], with the timers and the voices of the page. *)
Record Scheduling : Type := {
  currentTimeMs : num;
  s_timeoutRefs : list nat;
  s_nextTimeoutId : nat;
  s_pendingTimeouts : list (nat * (num * Callback num));
  s_voices : list (Voice num)
}.

(** [window.setTimeout(callback, delay)] followed by
    [timeoutRefs.current.push(id)]. *)
Definition setTimeout_push (callback : Callback num) (delay : num)
    (s : Scheduling) : Scheduling :=
  let id := s_nextTimeoutId s in
  {| currentTimeMs := currentTimeMs s;
     s_timeoutRefs := s_timeoutRefs s ++ [id];
     s_nextTimeoutId := S id;
     s_pendingTimeouts := s_pendingTimeouts s ++ [(id, (delay, callback))];
     s_voices := s_voices s |}.

(** The body of [events.forEach((event, idx) => ...)]; [clock idx] is
    [audioCtxRef.current.currentTime] as read for the event [idx]. *)
Definition schedule (cfg : AppConfig num) (opts : PlayOptions)
    (sessionGain : nat) (clock : nat -> num)
    (event : MorseEvent num) (idx : nat) (s : Scheduling) : Scheduling :=
  (* 1. Audio Scheduling (Precise via Web Audio Time) *)
  let s :=
    if enableSound opts && is_on event then
      let startSec :=
        add (clock idx) (div (currentTimeMs s) (lit 1000)) in
      let durationSec := div (duration event) (lit 1000) in
      let level := div (volume cfg) (lit 100) in
      let voice :=
        match soundType cfg with
        | CW =>
            {| voice_oscillator :=
                 {| osc_type := sine; frequency := pitch cfg;
                    startTime := startSec;
                    stopTime := add startSec durationSec |};
               voice_gainValue := None;
               (* Envelope to prevent popping *)
               voice_gainCalls :=
                 [setValueAtTime (lit 0) startSec;
                  linearRampToValueAtTime level
                    (add startSec (div (lit 5) (lit 1000)));
                  setValueAtTime level
                    (sub (add startSec durationSec)
                       (div (lit 5) (lit 1000)));
                  linearRampToValueAtTime (lit 0)
                    (add startSec durationSec)];
               voice_session := sessionGain |}
        | TELEGRAPH =>
            (* Telegraph click *)
            {| voice_oscillator :=
                 {| osc_type := square; frequency := lit 100;
                    startTime := startSec;
                    stopTime := add startSec durationSec |};
               voice_gainValue := Some level;
               voice_gainCalls := [];
               voice_session := sessionGain |}
        end in
      {| currentTimeMs := currentTimeMs s;
         s_timeoutRefs := s_timeoutRefs s;
         s_nextTimeoutId := s_nextTimeoutId s;
         s_pendingTimeouts := s_pendingTimeouts s;
         s_voices := s_voices s ++ [voice] |}
    else s in
  (* 2. Visual & Vibrate Scheduling (via setTimeout) *)
  let s := setTimeout_push (event_callback event) (currentTimeMs s) s in
  (* Turn off light at end of 'on' event *)
  let s :=
    if is_on event
    then setTimeout_push (light_off_callback num)
           (add (currentTimeMs s) (duration event)) s
    else s in
  {| currentTimeMs := add (currentTimeMs s) (duration event);
     s_timeoutRefs := s_timeoutRefs s;
     s_nextTimeoutId := s_nextTimeoutId s;
     s_pendingTimeouts := s_pendingTimeouts s;
     s_voices := s_voices s |}.

(** The loop of [playSequence] over the events from the index [k] on. *)
Definition schedule_from (cfg : AppConfig num) (opts : PlayOptions)
    (sessionGain : nat) (clock : nat -> num) (k : nat)
    (events : list (MorseEvent num)) (s : Scheduling) : Scheduling :=
  fold_left
    (fun st ix => schedule cfg opts sessionGain clock (snd ix) (fst ix) st)
    (combine (seq k (List.length events)) events) s.

(** [playSequence], after [initAudio()]. *)
Definition playSequence (clock : nat -> num) (page : Page num)
    : Page num :=
  let page := stopPlayback page in (* Ensure everything is killed *)
  if JsString.eqb (trim (stringToPlay page)) [] then page
  else
    let events := generateTimingSequence (stringToPlay page) (config page) in
    let totalDuration := totalDurationMs events in
    (* Create a new Master Gain for this session *)
    let sessionGain := nextGainNode page in
    let s :=
      forEach events
        (schedule (config page) (options page) sessionGain clock)
        {| currentTimeMs := lit 0;
           s_timeoutRefs := timeoutRefs page;
           s_nextTimeoutId := nextTimeoutId page;
           s_pendingTimeouts := pendingTimeouts page;
           s_voices := voices page |} in
    (* End of Sequence Handler *)
    let s :=
      setTimeout_push (end_callback num) (add totalDuration (lit 100)) s in
    {| inputMode := inputMode page; inputText := inputText page;
       morseText := morseText page; config := config page;
       options := options page;
       playback := {| isPlaying := true; isPaused := false;
                      progress := progress (playback page);
                      currentIndex := currentIndex (playback page) |};
       isLightActive := isLightActive page;
       activeGainNode := Some sessionGain;
       timeoutRefs := s_timeoutRefs s;
       nextTimeoutId := s_nextTimeoutId s;
       pendingTimeouts := s_pendingTimeouts s;
       nextGainNode := S sessionGain;
       connectedGains := connectedGains page ++ [sessionGain];
       voices := s_voices s;
       canVibrate := canVibrate page;
       vibration := vibration page |}.

(** A timer of a call of [playSequence] fires. Its callback closes over
    the [options] and the [totalDuration] of that call and over its
    variable [currentTimeMs], which it reads when it runs:
    [currentTimeMs] is the value of the variable at that time. *)
Definition fire (opts : PlayOptions) (currentTimeMs totalDuration : num)
    (callback : Callback num) (page : Page num) : Page num :=
  match callback with
  | event_callback event =>
      let light :=
        match type event with
        | on => if enableLight opts then true else isLightActive page
        | off => false
        end in
      let vib :=
        match type event with
        | on =>
            if enableVibrate opts && canVibrate page
            then Some (duration event) else vibration page
        | off => vibration page
        end in
      (* Update Progress *)
      let pb :=
        {| isPlaying := isPlaying (playback page);
           isPaused := isPaused (playback page);
           progress := math_min (div currentTimeMs totalDuration) (lit 1);
           currentIndex := currentIndex (playback page) |} in
      {| inputMode := inputMode page; inputText := inputText page;
         morseText := morseText page; config := config page;
         options := options page; playback := pb; isLightActive := light;
         activeGainNode := activeGainNode page;
         timeoutRefs := timeoutRefs page;
         nextTimeoutId := nextTimeoutId page;
         pendingTimeouts := pendingTimeouts page;
         nextGainNode := nextGainNode page;
         connectedGains := connectedGains page; voices := voices page;
         canVibrate := canVibrate page; vibration := vib |}
  | light_off_callback _ => with_playback page (playback page) false
  | end_callback _ => stopPlayback page
  end.

(** The timers of a session in the order in which they are set, each
    with its delay: for every event the timer of its callback, due when the
    event starts, followed for a signal by the timer that turns the light
    off, due when the signal ends. *)
Fixpoint timers_of (start : num) (events : list (MorseEvent num))
    : list (num * Callback num) :=
  match events with
  | [] => []
  | event :: rest =>
      (start, event_callback event)
      :: (if is_on event
          then [(add start (duration event), light_off_callback num)]
          else [])
      ++ timers_of (add start (duration event)) rest
  end.

(** [handleSaveAudio], up to the call of [startRendering]: nothing for
    the empty string, else the rendering of the string that would be
    played. *)
Definition handleSaveAudio (page : Page num) : option (OfflineSetup num) :=
  let stringToSave :=
    match inputMode page with
    | text_mode => morseText page
    | morse_mode => inputText page
    end in
  match stringToSave with
  | [] => None
  | _ => Some (renderAudioToWav_setup stringToSave (config page))
  end.

(** *** The page as a transition system *)

(** What happens to the page: the buttons and text boxes of the component
    with the handlers they are wired to, and a timer that fires. *)
Inductive Action : Type :=
| click_play (clock : nat -> num)  (* handlePause or playSequence *)
| click_swap                       (* handleSwapMode *)
| edit_main (val : jsstring)       (* handleMainInputChange *)
| edit_secondary (val : jsstring)  (* handleSecondaryDisplayChange *)
| click_option (key : OptionKey)   (* toggleOption(key) *)
| set_config (cfg : AppConfig num) (* setConfig({...config, ...}) *)
| timer_fires (id : nat) (opts : PlayOptions)
    (currentTimeMs totalDuration : num).

Definition with_settings (page : Page num) (cfg : AppConfig num)
    (opts : PlayOptions) : Page num :=
  {| inputMode := inputMode page; inputText := inputText page;
     morseText := morseText page; config := cfg; options := opts;
     playback := playback page; isLightActive := isLightActive page;
     activeGainNode := activeGainNode page;
     timeoutRefs := timeoutRefs page;
     nextTimeoutId := nextTimeoutId page;
     pendingTimeouts := pendingTimeouts page;
     nextGainNode := nextGainNode page;
     connectedGains := connectedGains page; voices := voices page;
     canVibrate := canVibrate page; vibration := vibration page |}.

(** The timer [id] leaves the timers of the window. *)
Definition without_timeout (id : nat) (page : Page num) : Page num :=
  {| inputMode := inputMode page; inputText := inputText page;
     morseText := morseText page; config := config page;
     options := options page; playback := playback page;
     isLightActive := isLightActive page;
     activeGainNode := activeGainNode page;
     timeoutRefs := timeoutRefs page;
     nextTimeoutId := nextTimeoutId page;
     pendingTimeouts := clearTimeout id (pendingTimeouts page);
     nextGainNode := nextGainNode page;
     connectedGains := connectedGains page; voices := voices page;
     canVibrate := canVibrate page; vibration := vibration page |}.

Definition handle (action : Action) (page : Page num) : Page num :=
  match action with
  | click_play clock =>
      if isPlaying (playback page)
      then stopPlayback page (* handlePause *)
      else playSequence clock page
  | click_swap => handleSwapMode page
  | edit_main val => handleMainInputChange val page
  | edit_secondary val => handleSecondaryDisplayChange val page
  | click_option key =>
      with_settings page (config page) (toggleOption key (options page))
  | set_config cfg => with_settings page cfg (options page)
  | timer_fires id opts currentTimeMs totalDuration =>
      match find (fun t => fst t =? id) (pendingTimeouts page) with
      | Some (_, (_, callback)) =>
          fire opts currentTimeMs totalDuration callback
            (without_timeout id page)
      | None => page
      end
  end.

Definition run (actions : list Action) (page : Page num) : Page num :=
  fold_left (fun p action => handle action p) actions page.

(** The state of the refs agrees with the page: the gain node connected
    to the destination is that of the active session and no other, and
    every pending timer is recorded in [timeoutRefs.current]. *)
Definition consistent (page : Page num) : Prop :=
  connectedGains page
  = match activeGainNode page with Some g => [g] | None => [] end
  /\ Forall (fun t => In (fst t) (timeoutRefs page)) (pendingTimeouts page).

(** The page when the component is mounted; [default_config] is
    [DEFAULT_CONFIG] in the numbers [num]. *)
Definition initial_page (default_config : AppConfig num)
    (can_vibrate : bool) : Page num :=
  {| inputMode := text_mode;
     inputText := str "eish5";
     morseText := textToMorse (str "eish5");
     config := default_config;
     options := initial_options;
     playback := {| isPlaying := false; isPaused := false;
                    progress := lit 0; currentIndex := 0 |};
     isLightActive := false;
     activeGainNode := None;
     timeoutRefs := [];
     nextTimeoutId := 1;
     pendingTimeouts := [];
     nextGainNode := 0;
     connectedGains := [];
     voices := [];
     canVibrate := can_vibrate;
     vibration := None |}.

(** The delay of a pending timer. *)
Definition delay (t : nat * (num * Callback num)) : num := fst (snd t).

End Handlers.


End App.

(** 20 words per minute with the telegraph sound, in exact arithmetic. *)
Definition exact_telegraph : AppConfig Q :=
  {| wpm := 20%Q; farnsworth := 20%Q; pitch := 550%Q; volume := 80%Q;
     soundType := TELEGRAPH; alphabet := LATIN |}.

(** ** morseService.ts: the audio context helper *)

Module AudioContextHelper.

(** [let audioCtx: AudioContext | null = null], with the number of audio
    contexts constructed so far; a context is named by its number. *)
Record Module_state : Type := {
  audioCtx : option nat;
  constructed : nat
}.

Definition getAudioContext (st : Module_state) : nat * Module_state :=
  match audioCtx st with
  | None =>
      let ctx := constructed st in
      (ctx, {| audioCtx := Some ctx; constructed := S (constructed st) |})
  | Some ctx => (ctx, st)
  end.

(** [n] calls in a row: the contexts returned, and the state. *)
Fixpoint calls (n : nat) (st : Module_state) : list nat * Module_state :=
  match n with
  | 0 => ([], st)
  | S n =>
      let (ctx, st) := getAudioContext st in
      let (ctxs, st) := calls n st in
      (ctx :: ctxs, st)
  end.

End AudioContextHelper.
(** ** Facts about strings *)

Section StringFacts.

Lemma char_eqb_eq (a b : ascii) : char_eqb a b = true <-> a = b.
Proof. apply Ascii.eqb_eq. Qed.

Lemma char_eqb_neq (a b : ascii) : char_eqb a b = false <-> a <> b.
Proof. apply Ascii.eqb_neq. Qed.

Lemma jsstring_eqb_eq (s t : jsstring) : JsString.eqb s t = true <-> s = t.
Proof.
  revert t; induction s as [|a s IH]; intros [|b t]; simpl;
    try (split; (reflexivity || discriminate)).
  rewrite andb_true_iff, char_eqb_eq, IH.
  split; [intros [-> ->]; reflexivity | intros H; inversion H; auto].
Qed.

Lemma jsstring_eqb_refl (s : jsstring) : JsString.eqb s s = true.
Proof. apply jsstring_eqb_eq; reflexivity. Qed.

Lemma split_nonempty (sep : ascii) (s : jsstring) :
  exists w ws, split sep s = w :: ws.
Proof.
  induction s as [|c s (w & ws & IH)]; simpl; eauto.
  destruct (char_eqb c sep); eauto. rewrite IH; eauto.
Qed.

(** A string without the separator is one piece, and it stays in front of
    the first piece of what follows it. *)
Lemma split_app_free (sep : ascii) (a s : jsstring) :
  Forall (fun c => c <> sep) a ->
  split sep (a ++ s) =
  match split sep s with
  | w :: ws => (a ++ w) :: ws
  | [] => [a]
  end.
Proof.
  induction 1 as [|c a Hc _ IH]; simpl.
  - destruct (split_nonempty sep s) as (w & ws & ->); reflexivity.
  - apply char_eqb_neq in Hc. rewrite Hc, IH.
    destruct (split sep s); reflexivity.
Qed.

Lemma split_free (sep : ascii) (a : jsstring) :
  Forall (fun c => c <> sep) a -> split sep a = [a].
Proof.
  intros H. rewrite <- (app_nil_r a) at 1.
  rewrite (split_app_free [] H); simpl. rewrite app_nil_r; reflexivity.
Qed.


Lemma split_snoc (sep x : ascii) (s : jsstring) :
  x <> sep -> split sep (s ++ [x]) = app_last (split sep s) [x].
Proof.
  intros Hx. apply char_eqb_neq in Hx.
  induction s as [|c s IH]; simpl.
  - rewrite Hx; reflexivity.
  - rewrite IH. destruct (split_nonempty sep s) as (w & ws & ->).
    destruct (char_eqb c sep); simpl; [reflexivity|].
    destruct ws; reflexivity.
Qed.

Lemma split_pieces_Forall (P : ascii -> Prop) (sep : ascii) (s : jsstring) :
  Forall P s -> Forall (Forall P) (split sep s).
Proof.
  induction 1 as [|c s Hc _ IH]; simpl; [repeat constructor|].
  destruct (char_eqb c sep); [constructor; auto|].
  destruct (split sep s) as [|w ws]; [repeat constructor; auto|].
  inversion IH; subst. constructor; auto.
Qed.

Lemma join_empty_concat (items : list jsstring) : join [] items = List.concat items.
Proof.
  induction items as [|x [|y l] IH]; simpl in *;
    [reflexivity | rewrite app_nil_r; reflexivity | rewrite IH; reflexivity].
Qed.

Lemma join_cons (sep x y : jsstring) (l : list jsstring) :
  join sep (x :: y :: l) = x ++ sep ++ join sep (y :: l).
Proof. reflexivity. Qed.

Lemma join_app_head (sep a x : jsstring) (l : list jsstring) :
  join sep ((a ++ x) :: l) = a ++ join sep (x :: l).
Proof. destruct l; simpl; [reflexivity | rewrite <- app_assoc; reflexivity]. Qed.

(** *** Trimming a string whose only white space is the space *)


Lemma trimStart_spaces (s : jsstring) :
  Forall white_is_space s ->
  exists n, s = repeat " "%char n ++ trimStart s.
Proof.
  induction 1 as [|c s Hc _ (n & IH)]; simpl; [exists 0; reflexivity|].
  destruct (is_white c) eqn:W.
  - exists (S n). simpl. rewrite (Hc W), <- IH; reflexivity.
  - exists 0; reflexivity.
Qed.

Lemma trimStart_Forall (P : ascii -> Prop) (s : jsstring) :
  Forall P s -> Forall P (trimStart s).
Proof.
  induction 1 as [|c s Hc Hs IH]; simpl; [constructor|].
  destruct (is_white c); [assumption | constructor; assumption].
Qed.

Lemma trimEnd_spaces (s : jsstring) :
  Forall white_is_space s ->
  exists n, s = trimEnd s ++ repeat " "%char n.
Proof.
  induction 1 as [|c s Hc _ (n & IH)]; simpl; [exists 0; reflexivity|].
  destruct (trimEnd s) as [|d t] eqn:E.
  - simpl in IH. destruct (is_white c) eqn:W.
    + exists (S n). simpl. rewrite (Hc W), <- IH; reflexivity.
    + exists n. simpl. rewrite <- IH; reflexivity.
  - exists n. rewrite IH at 1. reflexivity.
Qed.

Lemma trimEnd_Forall (P : ascii -> Prop) (s : jsstring) :
  Forall P s -> Forall P (trimEnd s).
Proof.
  induction 1 as [|c s Hc Hs IH]; simpl; [constructor|].
  destruct (trimEnd s); [destruct (is_white c); repeat constructor; auto|].
  constructor; assumption.
Qed.

Lemma trim_Forall (P : ascii -> Prop) (s : jsstring) :
  Forall P s -> Forall P (trim s).
Proof. intros H. apply trimEnd_Forall, trimStart_Forall, H. Qed.

Lemma trim_spaces (s : jsstring) :
  Forall white_is_space s ->
  exists n m, s = repeat " "%char n ++ trim s ++ repeat " "%char m.
Proof.
  intros H. destruct (trimStart_spaces H) as (n & Hn).
  destruct (trimEnd_spaces (trimStart_Forall H)) as (m & Hm).
  exists n, m. unfold trim. rewrite <- Hm. exact Hn.
Qed.

(** The pattern of [replace_separators] can only match [" / "] in such a
    string, so the replacement changes nothing. *)
Lemma replace_separators_id_upto (n : nat) (s : jsstring) :
  List.length s <= n -> Forall white_is_space s -> replace_separators s = s.
Proof.
  revert s; induction n as [|n IH]; intros s Hn Hs.
  - destruct s; [reflexivity | simpl in Hn; lia].
  - destruct s as [|a [|b [|c r]]]; try reflexivity.
    inversion Hs as [|? ? Ha Hs1]; subst.
    inversion Hs1 as [|? ? Hb Hs2]; subst.
    inversion Hs2 as [|? ? Hc Hr]; subst.
    simpl in Hn.
    change (replace_separators (a :: b :: c :: r))
      with (if is_white a && char_eqb b "/" && is_white c
            then str " / " ++ replace_separators r
            else a :: replace_separators (b :: c :: r)).
    destruct (is_white a && char_eqb b "/" && is_white c) eqn:E.
    + apply andb_true_iff in E as [E Wc].
      apply andb_true_iff in E as [Wa Eb].
      apply char_eqb_eq in Eb.
      rewrite (Ha Wa), (Hc Wc), Eb, (IH r) by (assumption || lia).
      reflexivity.
    + rewrite (IH (b :: c :: r)) by (assumption || simpl; lia).
      reflexivity.
Qed.

Lemma replace_separators_id (s : jsstring) :
  Forall white_is_space s -> replace_separators s = s.
Proof. apply (@replace_separators_id_upto (List.length s)); lia. Qed.

End StringFacts.

(** ** Facts about dictionaries and the code table *)

Section TableFacts.

Lemma get_In (o : MorseDictionary) (key v : jsstring) :
  get o key = Some v -> In (key, v) o.
Proof.
  induction o as [|[k w] o IH]; simpl; [discriminate|].
  destruct (JsString.eqb k key) eqn:E.
  - apply jsstring_eqb_eq in E. intros [= ->]. left; congruence.
  - intros H; right; auto.
Qed.




Lemma MORSE_MAP_entries_ok : forallb entry_ok MORSE_MAP = true.
Proof. vm_compute. reflexivity. Qed.


Lemma MORSE_MAP_entry (key code : jsstring) :
  get MORSE_MAP key = Some code ->
  (exists c, key = [c] /\ c <> " "%char)
  /\ code <> []
  /\ Forall (fun c => dot_or_dash c = true) code
  /\ get REVERSE_MORSE_MAP code = Some key.
Proof.
  intros H. apply get_In in H.
  pose proof (proj1 (forallb_forall _ _) MORSE_MAP_entries_ok _ H) as Hok.
  unfold entry_ok in Hok; simpl fst in Hok; simpl snd in Hok.
  repeat (apply andb_true_iff in Hok as [Hok ?]).
  repeat split.
  - destruct key as [|c [|? ?]]; try discriminate.
    exists c; split; [reflexivity|].
    apply char_eqb_neq. destruct (char_eqb c " "); [discriminate|reflexivity].
  - intros ->. discriminate.
  - apply Forall_forall. apply forallb_forall. assumption.
  - destruct (get REVERSE_MORSE_MAP code) as [k|] eqn:E; simpl in *.
    + f_equal. apply jsstring_eqb_eq; assumption.
    + destruct key; [|discriminate]. discriminate.
Qed.


Lemma dot_or_dash_not (x c : ascii) :
  dot_or_dash x = false -> dot_or_dash c = true -> c <> x.
Proof. intros Hx Hc ->. congruence. Qed.

Lemma dot_or_dash_white_is_space (c : ascii) :
  dot_or_dash c = true -> white_is_space c.
Proof.
  unfold dot_or_dash. intros H W.
  apply orb_true_iff in H as [H|H]; apply char_eqb_eq in H; subst;
    discriminate.
Qed.

End TableFacts.

(** ** The codec *)

Example textToMorse_SOS : textToMorse (str "SOS") = str "... --- ...".
Proof. reflexivity. Qed.

Example textToMorse_A_B : textToMorse (str "a B") = str ".- / -...".
Proof. reflexivity. Qed.

Example morseToText_A_B : morseToText (str ".- / -...") = str "A B".
Proof. reflexivity. Qed.


Section CodecFacts.

Lemma codes_of_space (w : jsstring) : codes_of (" "%char :: w) = codes_of w.
Proof. reflexivity. Qed.

Lemma codes_of_spaces (n : nat) (w : jsstring) :
  codes_of (repeat " "%char n ++ w) = codes_of w.
Proof. induction n; simpl; [reflexivity | rewrite codes_of_space; exact IHn]. Qed.

Lemma split_snoc_sep (sep : ascii) (s : jsstring) :
  split sep (s ++ [sep]) = split sep s ++ [[]].
Proof.
  induction s as [|c s IH]; simpl.
  - rewrite (proj2 (char_eqb_eq sep sep) eq_refl); reflexivity.
  - rewrite IH. destruct (split_nonempty sep s) as (w & ws & ->).
    destruct (char_eqb c sep); reflexivity.
Qed.

Lemma codes_of_snoc_space (w : jsstring) :
  codes_of (w ++ [" "%char]) = codes_of w.
Proof.
  unfold codes_of. rewrite split_snoc_sep, filter_app; simpl.
  apply app_nil_r.
Qed.

Lemma codes_of_app_spaces (n : nat) (w : jsstring) :
  codes_of (w ++ repeat " "%char n) = codes_of w.
Proof.
  revert w; induction n as [|n IH]; intros w; simpl.
  - rewrite app_nil_r; reflexivity.
  - change (w ++ " "%char :: repeat " "%char n)
      with (w ++ [" "%char] ++ repeat " "%char n).
    rewrite app_assoc, IH. apply codes_of_snoc_space.
Qed.

Lemma codes_of_trim (w : jsstring) :
  Forall white_is_space w -> codes_of (trim w) = codes_of w.
Proof.
  intros H. destruct (trim_spaces H) as (n & m & E).
  rewrite E at 2. rewrite codes_of_spaces, codes_of_app_spaces; reflexivity.
Qed.

Lemma words_of_space (m : jsstring) :
  words_of (" "%char :: m) = words_of m.
Proof.
  unfold words_of; simpl.
  destruct (split_nonempty "/" m) as (w & ws & ->); reflexivity.
Qed.

Lemma words_of_spaces (n : nat) (m : jsstring) :
  words_of (repeat " "%char n ++ m) = words_of m.
Proof. induction n; simpl; [reflexivity | rewrite words_of_space; exact IHn]. Qed.

Lemma map_codes_of_app_last (l : list jsstring) :
  map codes_of (app_last l [" "%char]) = map codes_of l.
Proof.
  induction l as [|w [|w' l] IH]; simpl in *;
    [reflexivity | rewrite codes_of_snoc_space; reflexivity
    | rewrite IH; reflexivity].
Qed.

Lemma words_of_snoc_space (m : jsstring) :
  words_of (m ++ [" "%char]) = words_of m.
Proof.
  unfold words_of. rewrite split_snoc by discriminate.
  apply map_codes_of_app_last.
Qed.

Lemma words_of_app_spaces (n : nat) (m : jsstring) :
  words_of (m ++ repeat " "%char n) = words_of m.
Proof.
  revert m; induction n as [|n IH]; intros m; simpl.
  - rewrite app_nil_r; reflexivity.
  - change (m ++ " "%char :: repeat " "%char n)
      with (m ++ [" "%char] ++ repeat " "%char n).
    rewrite app_assoc, IH. apply words_of_snoc_space.
Qed.

Lemma words_of_trim (m : jsstring) :
  Forall white_is_space m -> words_of (trim m) = words_of m.
Proof.
  intros H. destruct (trim_spaces H) as (n & k & E).
  rewrite E at 2. rewrite words_of_spaces, words_of_app_spaces; reflexivity.
Qed.

Lemma REVERSE_MORSE_MAP_empty_code : get REVERSE_MORSE_MAP [] = None.
Proof. vm_compute. reflexivity. Qed.

(** Decoding a word of a code string: trimming it and the empty codes
    between doubled spaces add nothing. *)
Lemma decode_codes_filter (l : list jsstring) :
  List.concat (map (fun code => or_empty (get REVERSE_MORSE_MAP code)) l)
  = decode_codes (filter (fun code => negb (JsString.eqb code [])) l).
Proof.
  unfold decode_codes. induction l as [|x l IH]; [reflexivity|].
  cbn [map List.concat filter]. rewrite IH.
  destruct x as [|c x]; cbn [JsString.eqb negb map List.concat].
  - rewrite REVERSE_MORSE_MAP_empty_code. reflexivity.
  - reflexivity.
Qed.

Lemma decode_word (w : jsstring) :
  Forall white_is_space w ->
  join [] (map (fun code => or_empty (get REVERSE_MORSE_MAP code))
             (split " " (trim w)))
  = decode_codes (codes_of w).
Proof.
  intros H. rewrite join_empty_concat, decode_codes_filter.
  fold (codes_of (trim w)). rewrite codes_of_trim by assumption.
  reflexivity.
Qed.

Lemma char_code_white_is_space (c : ascii) :
  Forall white_is_space (char_code c).
Proof.
  unfold char_code. destruct (char_eqb c " ").
  - constructor; [intros W; discriminate | constructor].
  - destruct (get MORSE_MAP [c]) as [code|] eqn:E; simpl; [|constructor].
    destruct (MORSE_MAP_entry _ E) as (_ & _ & Hcode & _).
    eapply Forall_impl; [|exact Hcode].
    intros a Ha. apply dot_or_dash_white_is_space, Ha.
Qed.

Lemma join_space_white_is_space (items : list jsstring) :
  Forall (Forall white_is_space) items ->
  Forall white_is_space (join (str " ") items).
Proof.
  induction 1 as [|x l Hx Hl IH]; [constructor|].
  destruct l as [|y l]; [exact Hx|].
  rewrite join_cons. apply Forall_app; split; [exact Hx|].
  apply Forall_app; split; [|exact IH].
  repeat constructor.
Qed.

Lemma code_string_white_is_space (u : jsstring) :
  Forall white_is_space (join (str " ") (map char_code u)).
Proof.
  apply join_space_white_is_space, Forall_map, Forall_forall.
  intros c _. apply char_code_white_is_space.
Qed.

Lemma words_of_slash (m : jsstring) :
  words_of ("/"%char :: m) = [] :: words_of m.
Proof. reflexivity. Qed.

Section OneCode.

Variable code : jsstring.
Hypothesis code_nonempty : code <> [].
Hypothesis code_dots_dashes : Forall (fun c => dot_or_dash c = true) code.

Lemma code_no_slash : Forall (fun a => a <> "/"%char) code.
Proof.
  eapply Forall_impl; [|exact code_dots_dashes].
  intros a. apply dot_or_dash_not; reflexivity.
Qed.

Lemma code_no_space : Forall (fun a => a <> " "%char) code.
Proof.
  eapply Forall_impl; [|exact code_dots_dashes].
  intros a. apply dot_or_dash_not; reflexivity.
Qed.

Lemma codes_of_code_space (w : jsstring) :
  codes_of (code ++ " "%char :: w) = code :: codes_of w.
Proof.
  unfold codes_of. rewrite (split_app_free _ code_no_space).
  cbn [split]. change (char_eqb " " " ") with true. cbv iota.
  rewrite app_nil_r. cbn [filter].
  destruct code; [congruence | reflexivity].
Qed.

Lemma words_of_code_alone : words_of code = [[code]].
Proof.
  unfold words_of, codes_of.
  rewrite (split_free code_no_slash). cbn [map].
  rewrite (split_free code_no_space). cbn [filter].
  destruct code; [congruence | reflexivity].
Qed.

Lemma words_of_code_space (m : jsstring) :
  words_of (code ++ " "%char :: m) =
  match words_of m with
  | g :: gs => (code :: g) :: gs
  | [] => [[code]]
  end.
Proof.
  unfold words_of. rewrite (split_app_free _ code_no_slash).
  cbn [split]. change (char_eqb " " "/") with false. cbv iota.
  destruct (split_nonempty "/" m) as (w & ws & ->). cbn [map].
  rewrite codes_of_code_space. reflexivity.
Qed.

End OneCode.

(** The words of the code string of a text are the groups of the text. *)
Lemma words_of_code_string (u : jsstring) :
  words_of (join (str " ") (map char_code u)) = groups u.
Proof.
  induction u as [|c r IH]; [reflexivity|].
  cbn [map groups]. unfold char_code at 1.
  destruct (char_eqb c " ") eqn:Ec.
  - (* a space: the separator token *)
    destruct r as [|c' r']; [reflexivity|].
    cbn [map] in *. rewrite join_cons.
    change (str "/" ++ str " " ++ ?t) with ("/"%char :: " "%char :: t).
    rewrite words_of_slash, words_of_space, IH. reflexivity.
  - destruct (get MORSE_MAP [c]) as [code|] eqn:E; cbn [or_empty].
    + (* a character with a code *)
      destruct (MORSE_MAP_entry _ E) as (_ & Hne & Hcode & _).
      destruct r as [|c' r'].
      * cbn [map join groups]. apply words_of_code_alone; assumption.
      * cbn [map] in *. rewrite join_cons.
        change (str " " ++ ?t) with (" "%char :: t).
        rewrite words_of_code_space, IH by assumption. reflexivity.
    + (* a character without code *)
      destruct r as [|c' r']; [reflexivity|].
      cbn [map] in *. rewrite join_cons.
      change ([] ++ str " " ++ ?t) with (" "%char :: t).
      rewrite words_of_space. exact IH.
Qed.

Lemma groups_nonempty (u : jsstring) : groups u <> [].
Proof.
  induction u as [|c r IH]; cbn [groups]; [discriminate|].
  destruct (char_eqb c " "); [discriminate|].
  destruct (get MORSE_MAP [c]); [|exact IH].
  destruct (groups r); discriminate.
Qed.

(** Decoding the groups of a text gives back what the table knows of it. *)
Lemma decode_groups (u : jsstring) :
  join (str " ") (map decode_codes (groups u)) = strip_unmapped u.
Proof.
  induction u as [|c r IH]; [reflexivity|].
  cbn [groups strip_unmapped filter]. unfold in_domain at 1.
  destruct (char_eqb c " ") eqn:Ec.
  - apply char_eqb_eq in Ec; subst c. cbn [orb map].
    pose proof (groups_nonempty r) as Hne.
    destruct (groups r) as [|g gs]; [congruence|].
    cbn [map] in *. rewrite join_cons, IH. reflexivity.
  - cbn [orb]. destruct (get MORSE_MAP [c]) as [code|] eqn:E; [|exact IH].
    destruct (MORSE_MAP_entry _ E) as (_ & _ & _ & Hrev).
    pose proof (groups_nonempty r) as Hne.
    destruct (groups r) as [|g gs]; [congruence|].
    cbn [map] in *. unfold decode_codes at 1. cbn [map List.concat].
    rewrite Hrev. cbn [or_empty]. fold (decode_codes g).
    change ([c] ++ decode_codes g) with ([c] ++ decode_codes g).
    rewrite join_app_head, IH. reflexivity.
Qed.

Lemma textToMorse_char_code (text : jsstring) :
  textToMorse text
  = trim (join (str " ") (map char_code (toUpperCase text))).
Proof.
  unfold textToMorse, split_chars. rewrite map_map.
  rewrite (map_ext _ char_code).
  - rewrite replace_separators_id; [reflexivity|].
    apply code_string_white_is_space.
  - intros c. unfold char_code. cbn [JsString.eqb str list_ascii_of_string].
    rewrite andb_true_r. reflexivity.
Qed.

Lemma starts_white_trimStart (s : jsstring) :
  starts_white (trimStart s) = false.
Proof.
  induction s as [|c s IH]; simpl; [reflexivity|].
  destruct (is_white c) eqn:W; [exact IH | simpl; exact W].
Qed.

Lemma starts_white_trimEnd (s : jsstring) :
  starts_white s = false -> starts_white (trimEnd s) = false.
Proof.
  destruct s as [|c s]; simpl; [reflexivity|]. intros W.
  destruct (trimEnd s); [rewrite W|]; simpl; auto.
Qed.

Lemma ends_white_trimEnd (s : jsstring) : ends_white (trimEnd s) = false.
Proof.
  induction s as [|c s IH]; simpl; [reflexivity|].
  destruct (trimEnd s) as [|d t].
  - destruct (is_white c) eqn:W; simpl; auto.
  - exact IH.
Qed.

End CodecFacts.

(** *** The code table is a bijection (C9) *)



(** *** Round trip (C4) *)

(** C4: decoding the code string of a text gives the text in upper case
    without the characters that are outside the domain of the code table
    (its keys and the space). *)
Theorem morseToText_textToMorse (text : jsstring) :
  morseToText (textToMorse text) = strip_unmapped (toUpperCase text).
Proof.
  rewrite textToMorse_char_code.
  set (u := toUpperCase text).
  pose proof (code_string_white_is_space u) as HJ.
  set (J := join (str " ") (map char_code u)) in *.
  unfold morseToText.
  rewrite <- decode_groups, <- words_of_code_string. fold J.
  rewrite <- (words_of_trim HJ).
  rewrite <- (words_of_trim (trim_Forall HJ)).
  unfold words_of. rewrite map_map. f_equal.
  apply map_ext_in. intros w Hw. apply decode_word.
  pose proof (split_pieces_Forall "/" (trim_Forall (trim_Forall HJ))) as Hp.
  rewrite Forall_forall in Hp. apply Hp, Hw.
Qed.

(** *** The shape of a code string (C7) *)

(** C7, as stated, fails: two spaces in a row in the text give two
    separator tokens in a row in the code string; the two spaces that a
    character without code leaves before a separator stay two; and a
    separator at the end of the code string has no space after it. *)
Lemma textToMorse_keeps_duplicate_separators :
  textToMorse (str "A  B") = str ".- / / -..."
  /\ adjacent_separators (split " " (textToMorse (str "A  B"))) = true
  /\ textToMorse (str "A# B") = str ".-  / -..."
  /\ textToMorse (str "A ") = str ".- /".
Proof. repeat split; reflexivity. Qed.

(** C7, amended: the code string of a text is the codes of the characters
    of the uppercased text (the separator token for a space, the empty
    string for a character without code) joined with single spaces and
    trimmed, so it neither begins nor ends with white space; the clean-up of
    the separators replaces nothing, so nothing is collapsed. *)
Theorem textToMorse_joins_and_trims (text : jsstring) :
  let joined := join (str " ") (map char_code (toUpperCase text)) in
  replace_separators joined = joined
  /\ textToMorse text = trim joined
  /\ starts_white (textToMorse text) = false
  /\ ends_white (textToMorse text) = false.
Proof.
  intros joined. rewrite textToMorse_char_code. fold joined.
  split; [|split; [reflexivity|split]].
  - apply replace_separators_id, code_string_white_is_space.
  - apply starts_white_trimEnd, starts_white_trimStart.
  - apply ends_white_trimEnd.
Qed.

(** ** The timing generator *)

Section ForEachFacts.

Context {A E : Type}.

Lemma forEach_from (body : A -> bool -> list E) (f : A -> nat -> list E -> list E)
    (n : nat) (xs : list A) (k : nat) (s : list E) :
  n = k + List.length xs ->
  (forall x i st, f x i st = st ++ body x (i <? n - 1)) ->
  fold_left (fun st ix => f (snd ix) (fst ix) st)
    (combine (seq k (List.length xs)) xs) s
  = s ++ flat_map_more body xs.
Proof.
  intros Hn Hf. revert k s Hn.
  induction xs as [|x xs IH]; intros k s Hn; simpl.
  - rewrite app_nil_r; reflexivity.
  - rewrite Hf. rewrite (IH (S k)) by (simpl in Hn; lia).
    destruct xs as [|y xs].
    + simpl in *. replace (k <? n - 1) with false
        by (symmetry; apply Nat.ltb_ge; lia).
      rewrite app_nil_r; reflexivity.
    + replace (k <? n - 1) with true
        by (symmetry; apply Nat.ltb_lt; simpl in Hn; lia).
      rewrite <- app_assoc. reflexivity.
Qed.

(** A [forEach] whose body only pushes events, the same for every index
    but the last. *)
Lemma forEach_pushes (body : A -> bool -> list E)
    (xs : list A) (f : A -> nat -> list E -> list E) (s : list E) :
  (forall x i st, f x i st = st ++ body x (i <? List.length xs - 1)) ->
  forEach xs f s = s ++ flat_map_more body xs.
Proof. intros Hf. unfold forEach. apply forEach_from with (n := List.length xs); auto. Qed.

Lemma forEach_pushes_nil (body : A -> bool -> list E)
    (xs : list A) (f : A -> nat -> list E -> list E) :
  (forall x i st, f x i st = st ++ body x (i <? List.length xs - 1)) ->
  forEach xs f [] = flat_map_more body xs.
Proof. intros Hf. apply (forEach_pushes body xs f [] Hf). Qed.

Lemma flat_map_more_map {B : Type} (h : E -> B) (body : A -> bool -> list E)
    (xs : list A) :
  map h (flat_map_more body xs)
  = flat_map_more (fun x more => map h (body x more)) xs.
Proof.
  induction xs as [|x [|y xs] IH]; [reflexivity | reflexivity |].
  change (flat_map_more body (x :: y :: xs))
    with (body x true ++ flat_map_more body (y :: xs)).
  rewrite map_app, IH. reflexivity.
Qed.

Lemma flat_map_more_ext (body body' : A -> bool -> list E) (xs : list A) :
  (forall x more, body x more = body' x more) ->
  flat_map_more body xs = flat_map_more body' xs.
Proof.
  intros Hb. induction xs as [|x [|y xs] IH]; [reflexivity | apply Hb |].
  change (flat_map_more body (x :: y :: xs))
    with (body x true ++ flat_map_more body (y :: xs)).
  rewrite IH, Hb. reflexivity.
Qed.

(** When the last element is told apart by nothing. *)
Lemma flat_map_more_flat_map (body : A -> bool -> list E)
    (g : A -> list E) (xs : list A) :
  (forall x more, body x more = g x) ->
  flat_map_more body xs = flat_map g xs.
Proof.
  intros Hb. induction xs as [|x [|y xs] IH]; [reflexivity | |].
  - simpl. rewrite app_nil_r. apply Hb.
  - change (flat_map_more body (x :: y :: xs))
      with (body x true ++ flat_map_more body (y :: xs)).
    rewrite IH, Hb. reflexivity.
Qed.

End ForEachFacts.

Section TimingFacts.

Context {num : Type} `{JsNumber num}.

Lemma flat_map_more_split_chars {B : Type}
    (body : jsstring -> bool -> list B) (s : jsstring) :
  flat_map_more body (split_chars s)
  = flat_map_more (fun c more => body [c] more) s.
Proof.
  unfold split_chars.
  induction s as [|x [|y s] IH]; [reflexivity | reflexivity |].
  cbn [map] in *.
  change (flat_map_more ?bb (?a :: ?c :: ?t))
    with (bb a true ++ flat_map_more bb (c :: t)).
  rewrite IH. reflexivity.
Qed.

Lemma sig_is_dash (c : ascii) :
  JsString.eqb [c] (str "-") = char_eqb c "-".
Proof. cbn. apply andb_true_r. Qed.

(** The generator emits the events of the segments of the code string. *)
Lemma generateTimingSequence_segments (morse : jsstring)
    (config : AppConfig num) :
  generateTimingSequence morse config
  = map (render (unitMs config) (farnsworthUnitMs config)) (segments morse).
Proof.
  unfold generateTimingSequence, segments.
  set (u := unitMs config). set (g := farnsworthUnitMs config).
  rewrite flat_map_more_map.
  apply (forEach_pushes_nil
           (fun word more =>
              map (render u g)
                (word_segments (split " " (trim word))
                 ++ (if more then [WordGap] else [])))).
  intros word wIdx st.
  set (chars := split " " (trim word)).
  unfold word_segments. rewrite map_app, flat_map_more_map.
  rewrite (forEach_pushes
             (fun char more =>
                map (render u g)
                  (if JsString.eqb char [] then []
                   else code_segments char
                        ++ (if more then [InterGap] else [])))).
  - destruct (wIdx <? _); unfold push; cbn [map];
      [rewrite <- app_assoc | rewrite app_nil_r]; reflexivity.
  - intros char cIdx st'.
    destruct (JsString.eqb char []); [rewrite app_nil_r; reflexivity|].
    rewrite (forEach_pushes
               (fun sig more =>
                  event on (if JsString.eqb sig (str "-")
                            then mul (lit 3) u else mul (lit 1) u)
                  :: (if more then [event off (mul (lit 1) u)] else []))).
    + rewrite flat_map_more_split_chars.
      unfold code_segments. rewrite map_app, flat_map_more_map.
      rewrite (flat_map_more_ext
                 (fun c more =>
                    map (render u g)
                      (Signal c :: (if more then [IntraGap] else [])))
                 (fun c more =>
                    event on (if JsString.eqb [c] (str "-")
                              then mul (lit 3) u else mul (lit 1) u)
                    :: (if more then [event off (mul (lit 1) u)] else []))).
      * destruct (cIdx <? _); unfold push; cbn [map];
          [rewrite <- app_assoc | rewrite app_nil_r]; reflexivity.
      * intros c more. cbn [map render]. rewrite sig_is_dash.
        destruct more; reflexivity.
    + intros sig sIdx st''.
      destruct (sIdx <? _); unfold push; rewrite <- ?app_assoc; reflexivity.
Qed.

Lemma flat_map_more_hom {A B C : Type} (h : list B -> list C)
    (body : A -> bool -> list B) (xs : list A) :
  h [] = [] -> (forall a b, h (a ++ b) = h a ++ h b) ->
  h (flat_map_more body xs)
  = flat_map_more (fun x more => h (body x more)) xs.
Proof.
  intros Hnil Happ.
  induction xs as [|x [|y xs] IH]; [exact Hnil | reflexivity |].
  change (flat_map_more body (x :: y :: xs))
    with (body x true ++ flat_map_more body (y :: xs)).
  rewrite Happ, IH. reflexivity.
Qed.

Lemma flat_map_singleton {A B : Type} (f : A -> B) (l : list A) :
  flat_map (fun x => [f x]) l = map f l.
Proof. induction l; simpl; congruence. Qed.

Lemma flat_map_map_out {A B C : Type} (f : B -> C) (g : A -> list B)
    (l : list A) :
  flat_map (fun x => map f (g x)) l = map f (flat_map g l).
Proof.
  induction l as [|x l IH]; simpl; [reflexivity|].
  rewrite map_app, IH. reflexivity.
Qed.

(** The signals among the events of the segments: one per symbol. *)
Lemma on_events_of_segments (u g : num) (morse : jsstring) :
  filter is_on (map (render u g) (segments morse))
  = map (fun sig => render u g (Signal sig)) (symbols morse).
Proof.
  set (h := fun segs => filter is_on (map (render u g) segs)).
  set (onev := fun sig => render u g (Signal sig)).
  assert (Hnil : h [] = []) by reflexivity.
  assert (Happ : forall a b, h (a ++ b) = h a ++ h b).
  { intros a b. unfold h. rewrite map_app, filter_app. reflexivity. }
  assert (Hgap : forall a (more : bool) gap,
             segment_type gap = off ->
             h (a ++ (if more then [gap] else [])) = h a).
  { intros a more gap Hg. rewrite Happ.
    destruct more; [|apply app_nil_r].
    destruct gap; try discriminate; apply app_nil_r. }
  assert (Hcode : forall char, h (code_segments char) = map onev char).
  { intros char. unfold code_segments.
    rewrite (flat_map_more_hom h _ _ Hnil Happ).
    rewrite (flat_map_more_flat_map _ (fun c => [onev c])).
    - apply flat_map_singleton.
    - intros c more.
      change (Signal c :: (if more then [IntraGap] else []))
        with ([Signal c] ++ (if more then [IntraGap] else [])).
      rewrite Hgap; reflexivity. }
  assert (Hword : forall chars,
             h (word_segments chars) = map onev (List.concat chars)).
  { intros chars. unfold word_segments.
    rewrite (flat_map_more_hom h _ _ Hnil Happ).
    rewrite (flat_map_more_flat_map _ (fun char => map onev char)).
    - rewrite flat_map_map_out, flat_map_concat_map, map_id. reflexivity.
    - intros char more. destruct char as [|c char]; [reflexivity|].
      cbn [JsString.eqb]. rewrite Hgap by reflexivity. apply Hcode. }
  change (h (segments morse) = map onev (symbols morse)).
  unfold segments, symbols.
  rewrite (flat_map_more_hom h _ _ Hnil Happ).
  rewrite (flat_map_more_flat_map _
             (fun word => map onev (List.concat (split " " (trim word))))).
  - apply flat_map_map_out.
  - intros word more. rewrite Hgap by reflexivity. apply Hword.
Qed.

Lemma trimStart_all_white (w : jsstring) :
  forallb is_white w = true -> trimStart w = [].
Proof.
  induction w as [|c w IH]; simpl; [reflexivity|].
  intros Hw. apply andb_true_iff in Hw as [Hc Hw]. rewrite Hc. auto.
Qed.

Lemma trim_all_white (w : jsstring) :
  forallb is_white w = true -> trim w = [].
Proof. intros Hw. unfold trim. rewrite trimStart_all_white; auto. Qed.

(** A code string of separators and white space splits into one more
    white word than it has separators. *)
Lemma split_separator_or_white (morse : jsstring) :
  forallb separator_or_white morse = true ->
  Forall (fun w => forallb is_white w = true) (split "/" morse)
  /\ List.length (split "/" morse) = S (count_separators morse).
Proof.
  unfold count_separators.
  induction morse as [|c morse IH]; cbn [forallb split filter].
  - intros _. split; [repeat constructor | reflexivity].
  - intros Hm. apply andb_true_iff in Hm as [Hc Hm].
    destruct (IH Hm) as [IHw IHn]. unfold separator_or_white in Hc.
    destruct (char_eqb c "/") eqn:Ec; cbn [List.length].
    + split; [constructor; [reflexivity | assumption] | congruence].
    + cbn [orb] in Hc.
      destruct (split "/" morse) as [|w ws]; [discriminate|].
      inversion IHw; subst. split; [|exact IHn].
      constructor; [|assumption]. cbn [forallb]. rewrite Hc. assumption.
Qed.

Lemma segments_of_white_words (words : list jsstring) :
  Forall (fun w => forallb is_white w = true) words ->
  flat_map_more
    (fun word more =>
       word_segments (split " " (trim word))
       ++ (if more then [WordGap] else []))
    words
  = repeat WordGap (List.length words - 1).
Proof.
  induction 1 as [|w [|w' ws] Hw _ IH].
  - reflexivity.
  - cbn. rewrite (trim_all_white _ Hw). reflexivity.
  - change (flat_map_more ?b (w :: w' :: ws))
      with (b w true ++ flat_map_more b (w' :: ws)).
    rewrite IH, (trim_all_white _ Hw). cbn [List.length].
    rewrite !Nat.sub_succ, !Nat.sub_0_r. reflexivity.
Qed.

Lemma segments_separator_or_white (morse : jsstring) :
  forallb separator_or_white morse = true ->
  segments morse = repeat WordGap (count_separators morse).
Proof.
  intros Hm. destruct (split_separator_or_white _ Hm) as [Hw Hn].
  unfold segments. rewrite (segments_of_white_words Hw), Hn.
  simpl. rewrite Nat.sub_0_r. reflexivity.
Qed.

Lemma count_separators_white (morse : jsstring) :
  forallb is_white morse = true ->
  count_separators morse = 0
  /\ forallb separator_or_white morse = true.
Proof.
  unfold count_separators.
  induction morse as [|c morse IH]; cbn [forallb filter];
    [intros _; split; reflexivity|].
  intros Hm. apply andb_true_iff in Hm as [Hc Hm].
  destruct (IH Hm) as [IH0 IH1]. unfold separator_or_white at 1.
  rewrite Hc, orb_true_r, IH1.
  destruct (char_eqb c "/") eqn:Ec; [|split; [exact IH0 | reflexivity]].
  apply char_eqb_eq in Ec; subst c. discriminate.
Qed.

End TimingFacts.

(** *** Empty and separator-only code strings (C1) *)

(** C1, as stated, fails: a code string that is one separator token gives
    one word gap (7 units of 60 ms at 20 words per minute), not the empty
    sequence. *)
Lemma generateTimingSequence_separator_not_empty :
  generateTimingSequence (str "/") DEFAULT_CONFIG = [event off 420%float]
  /\ generateTimingSequence (str "/") DEFAULT_CONFIG <> [].
Proof. split; [reflexivity | discriminate]. Qed.

(** C1, amended: for every configuration the empty code string gives the
    empty sequence, of total duration zero, and so does a code string of
    white space only; a code string of separator tokens and white space
    gives no signal but one word gap (7 spacing units) for each separator
    token. *)
Theorem generateTimingSequence_separators {num : Type} `{JsNumber num}
    (morse : jsstring) (config : AppConfig num) :
  generateTimingSequence [] config = []
  /\ totalDurationMs (generateTimingSequence [] config) = lit 0
  /\ (forallb is_white morse = true ->
      generateTimingSequence morse config = [])
  /\ (forallb separator_or_white morse = true ->
      generateTimingSequence morse config
      = repeat (event off (mul WORD_GAP (farnsworthUnitMs config)))
          (count_separators morse)).
Proof.
  assert (Hsep : forall m,
             forallb separator_or_white m = true ->
             generateTimingSequence m config
             = repeat (event off (mul WORD_GAP (farnsworthUnitMs config)))
                 (count_separators m)).
  { intros m Hm.
    rewrite generateTimingSequence_segments, segments_separator_or_white
      by assumption.
    induction (count_separators m) as [|n IH]; [reflexivity|].
    cbn [repeat map]. rewrite IH. reflexivity. }
  repeat split.
  - intros Hw. destruct (count_separators_white _ Hw) as [H0 Hs].
    rewrite (Hsep _ Hs), H0. reflexivity.
  - exact (Hsep morse).
Qed.

Lemma generateTimingSequence_separators_witness :
  generateTimingSequence (str "   ") DEFAULT_CONFIG = []
  /\ generateTimingSequence (str " / / ") DEFAULT_CONFIG
     = [event off 420%float; event off 420%float].
Proof.
  split.
  - destruct (generateTimingSequence_separators (str "   ") DEFAULT_CONFIG)
      as (_ & _ & Hwhite & _).
    apply Hwhite. reflexivity.
  - destruct (generateTimingSequence_separators (str " / / ") DEFAULT_CONFIG)
      as (_ & _ & _ & Hsep).
    apply Hsep. reflexivity.
Defined.

(** *** Durations of the signals (C10) *)

(** C10: the signals among the events are one per symbol of the code
    string, in order, and last three times [1200 / wpm] for the symbol [-]
    and once [1200 / wpm] for any other symbol: a symbol that is neither a
    dot nor a dash is sent as a dot, not rejected.  This holds for every
    [wpm], so for every [wpm > 0]. *)
Theorem on_event_durations {num : Type} `{JsNumber num}
    (morse : jsstring) (config : AppConfig num) :
  filter is_on (generateTimingSequence morse config)
  = map (fun sig =>
           event on
             (if char_eqb sig "-"
              then mul (lit 3) (div (lit 1200) (wpm config))
              else mul (lit 1) (div (lit 1200) (wpm config))))
      (symbols morse).
Proof.
  rewrite generateTimingSequence_segments. apply on_events_of_segments.
Qed.

Example unexpected_symbol_is_a_dot :
  symbols (str "-x") = ["-"%char; "x"%char]
  /\ generateTimingSequence (str "-x") DEFAULT_CONFIG
     = [event on 180%float; event off 60%float; event on 60%float].
Proof. split; reflexivity. Qed.

(** *** SOS at 20 words per minute (C8) *)

Lemma farnsworthUnitMs_binary64_off (config : AppConfig float) :
  PrimFloat.ltb (farnsworth config) (wpm config)
  && PrimFloat.ltb 0 (farnsworth config) = false ->
  farnsworthUnitMs config = unitMs config.
Proof.
  intros Hf. unfold farnsworthUnitMs.
  change (ltb (farnsworth config) (wpm config)
          && ltb (lit 0) (farnsworth config))
    with (PrimFloat.ltb (farnsworth config) (wpm config)
          && PrimFloat.ltb 0 (farnsworth config)).
  rewrite Hf. reflexivity.
Qed.

(** C8: the code string of [SOS] is [... --- ...]; at 20 words per minute,
    the Farnsworth speed not being strictly between 0 and 20, the unit is
    60 ms, a dot lasts 60 ms, a dash 180 ms, the gap inside a character
    60 ms and the gap between characters 180 ms. *)
Theorem SOS_timing (config : AppConfig float) :
  wpm config = 20%float ->
  PrimFloat.ltb (farnsworth config) 20 && PrimFloat.ltb 0 (farnsworth config)
  = false ->
  textToMorse (str "SOS") = str "... --- ..."
  /\ unitMs config = 60%float
  /\ generateTimingSequence (textToMorse (str "SOS")) config
     = [ event on 60%float; event off 60%float; event on 60%float;
         event off 60%float; event on 60%float;
         event off 180%float;
         event on 180%float; event off 60%float; event on 180%float;
         event off 60%float; event on 180%float;
         event off 180%float;
         event on 60%float; event off 60%float; event on 60%float;
         event off 60%float; event on 60%float ].
Proof.
  intros Hwpm Hf. rewrite <- Hwpm in Hf.
  split; [reflexivity|]. split.
  - unfold unitMs. rewrite Hwpm. reflexivity.
  - rewrite generateTimingSequence_segments.
    rewrite (farnsworthUnitMs_binary64_off _ Hf).
    unfold unitMs. rewrite Hwpm. reflexivity.
Qed.

Lemma SOS_timing_witness :
  unitMs DEFAULT_CONFIG = 60%float
  /\ List.length
       (generateTimingSequence (textToMorse (str "SOS")) DEFAULT_CONFIG) = 17.
Proof.
  destruct (SOS_timing DEFAULT_CONFIG eq_refl eq_refl) as (_ & Hu & Hs).
  split; [exact Hu | rewrite Hs; reflexivity].
Defined.

(** *** No guard on the speed (C3) *)

(** C3, as stated, fails: with [wpm = 0] the call returns, and the dot it
    is asked for lasts [1 * (1200 / 0)], which is infinite. *)
Lemma generateTimingSequence_accepts_zero_wpm :
  call_generateTimingSequence (str ".") (with_wpm DEFAULT_CONFIG 0%float)
  = Returns [event on infinity].
Proof. reflexivity. Qed.

(** No binary64 number is both below and above zero, so with [wpm = 0] the
    Farnsworth speed is never taken. *)
Lemma ltb_zero_both (f : float) :
  PrimFloat.ltb f 0 && PrimFloat.ltb 0 f = false.
Proof.
  rewrite !ltb_spec.
  change (Prim2SF 0) with (S754_zero false).
  destruct (Prim2SF f) as [s|s| |s m e]; try destruct s; reflexivity.
Qed.

(** C3, amended: the timing generator has no guard on the speed.  It
    returns a sequence for every configuration and throws nothing; when
    [wpm] is zero every event it returns, signal or gap, has an infinite
    duration. *)
Theorem generateTimingSequence_never_rejects (morse : jsstring)
    (config : AppConfig float) :
  (exists events, call_generateTimingSequence morse config = Returns events)
  /\ (wpm config = 0%float ->
      call_generateTimingSequence morse config
      = Returns (map (fun seg => event (segment_type seg) infinity)
                   (segments morse))).
Proof.
  split; [eexists; reflexivity|].
  intros Hwpm. unfold call_generateTimingSequence. f_equal.
  rewrite generateTimingSequence_segments.
  rewrite farnsworthUnitMs_binary64_off
    by (rewrite Hwpm; apply ltb_zero_both).
  unfold unitMs. rewrite Hwpm. apply map_ext.
  intros [sig| | |]; cbn [render segment_type]; try reflexivity.
  destruct (char_eqb sig "-"); reflexivity.
Qed.

Lemma generateTimingSequence_never_rejects_witness :
  call_generateTimingSequence (str ".- .") (with_wpm DEFAULT_CONFIG 0%float)
  = Returns [event on infinity; event off infinity; event on infinity;
             event off infinity; event on infinity].
Proof.
  apply (proj2 (generateTimingSequence_never_rejects (str ".- .")
                  (with_wpm DEFAULT_CONFIG 0%float))).
  reflexivity.
Defined.

(** *** The Farnsworth speed (C5) *)

Section ExactTiming.

Variable config : AppConfig Q.





End ExactTiming.


(** The same holds in binary64 for all the speeds the sliders offer. *)
Lemma binary64_slider_gaps_longer :
  forallb (fun w =>
             forallb (fun f => negb (f <? w)%Z || gaps_longer_binary64 f w)
               slider_speeds)
    slider_speeds = true.
Proof. vm_compute. reflexivity. Qed.


(** ** The WAV encoder *)

Section DataViewFacts.

Lemma little_endian_length (n : nat) (v : Z) :
  List.length (DataView.little_endian n v) = n.
Proof. revert v; induction n; intros v; simpl; auto. Qed.

Lemma from_little_endian_inverse (n : nat) (v : Z) :
  DataView.from_little_endian (DataView.little_endian n v)
  = (v mod 2 ^ (8 * Z.of_nat n))%Z.
Proof.
  revert v; induction n as [|n IH]; intros v.
  - cbn. symmetry. apply Z.mod_1_r.
  - cbn [DataView.little_endian DataView.from_little_endian]. rewrite IH.
    replace (8 * Z.of_nat (S n))%Z with (8 + 8 * Z.of_nat n)%Z by lia.
    rewrite Z.pow_add_r by lia.
    change (2 ^ 8)%Z with 256%Z.
    rewrite Z.rem_mul_r by (try apply Z.pow_pos_nonneg; lia).
    reflexivity.
Qed.

Lemma overwrite_ok (bs : list Z) (v : DataView.t) :
  List.length bs <= List.length v ->
  exists v', DataView.overwrite bs v = Some v'
             /\ List.length v' = List.length v.
Proof.
  revert v; induction bs as [|b bs IH]; intros v Hlen; simpl.
  - eauto.
  - destruct v as [|x v]; [simpl in Hlen; lia|].
    destruct (IH v) as (v' & -> & Hl); [simpl in Hlen; lia|].
    simpl. eexists; split; [reflexivity | simpl; congruence].
Qed.

(** A write that fits succeeds, keeps the length of the view and leaves the
    bytes before it as they are. *)
Lemma store_ok (byteOffset : nat) (bs : list Z) (v : DataView.t) :
  byteOffset + List.length bs <= List.length v ->
  exists v', DataView.store byteOffset bs v = Some v'
             /\ List.length v' = List.length v
             /\ forall k, k <= byteOffset -> firstn k v' = firstn k v.
Proof.
  revert v; induction byteOffset as [|n IH]; intros v Hlen; simpl.
  - destruct (overwrite_ok bs v) as (v' & Hv & Hl); [simpl in Hlen; lia|].
    exists v'. repeat split; auto.
    intros k Hk. replace k with 0 by lia. reflexivity.
  - destruct v as [|x v]; [simpl in Hlen; lia|].
    destruct (IH v) as (v' & -> & Hl & Hf); [simpl in Hlen; lia|].
    simpl. eexists; split; [reflexivity|]. split; [simpl; congruence|].
    intros [|k] Hk; [reflexivity|]. simpl. rewrite Hf by lia. reflexivity.
Qed.

Lemma firstn_length_app {A : Type} (l r : list A) :
  firstn (List.length l) (l ++ r) = l.
Proof. induction l; simpl; congruence. Qed.

Lemma firstn_skipn_prefix {A : Type} (n off k : nat) (l : list A) :
  off + n <= k -> firstn n (skipn off (firstn k l)) = firstn n (skipn off l).
Proof.
  intros Hk. rewrite skipn_firstn_comm, firstn_firstn.
  f_equal. lia.
Qed.

End DataViewFacts.

Section WavWriterFacts.

(** A loop each of whose steps succeeds and brings an invariant, indexed by
    the number of steps left, one step down. *)
Lemma for_each_invariant {A : Type} (I : nat -> state -> Prop)
    (body : A -> M unit) (xs : list A) :
  (forall k x st, I (S k) st ->
                  exists st', body x st = Some (tt, st') /\ I k st') ->
  forall st, I (List.length xs) st ->
             exists st', for_each xs body st = Some (tt, st') /\ I 0 st'.
Proof.
  intros Hstep. induction xs as [|x xs IH]; intros st HI; simpl.
  - exists st. split; [reflexivity | exact HI].
  - destruct (Hstep _ x st HI) as (st1 & Hb & H1).
    unfold bind. rewrite Hb. apply IH, H1.
Qed.

Lemma bind_run {A B : Type} (m : M A) (k : A -> M B) (a : A)
    (st st' : state) :
  m st = Some (a, st') -> bind m k st = k a st'.
Proof. intros Hm. unfold bind. rewrite Hm. reflexivity. Qed.

Variable abuffer : AudioBuffer.t.
Variable numOfChan : nat.
Variable channels : list (list float).

Lemma write_sample_ok (size : nat) (header : list Z) (left : nat)
    (sample : Z) (st : state) :
  writing size header (S left) st ->
  exists st',
    (o <- get_offset ;;
     on_view (DataView.setInt16 (44 + o) sample) ;;
     set_offset (o + 2)) st = Some (tt, st')
    /\ writing size header left st' /\ pos st' = pos st.
Proof.
  intros (Hsize & Hhead & Hroom).
  unfold bind, get_offset, on_view, set_offset, DataView.setInt16.
  destruct (store_ok (44 + offset st)
              (DataView.little_endian 2 (sample mod 2 ^ 16)) (view st))
    as (v' & -> & Hl & Hf).
  { rewrite little_endian_length. lia. }
  eexists; split; [reflexivity|]. unfold writing. cbn [view offset pos].
  split; [|reflexivity].
  split; [congruence|]. split; [|lia].
  rewrite Hf by lia. exact Hhead.
Qed.

Lemma write_frame_ok (size : nat) (header : list Z) (frames : nat)
    (p : nat) (st : state) :
  writing size header (numOfChan * S frames) st ->
  exists st',
    (for_each (seq 0 numOfChan) (fun i =>
       let sample := clamp (sample_at channels i p) in
       let sample := scale sample in
       o <- get_offset ;;
       on_view (DataView.setInt16 (44 + o) sample) ;;
       set_offset (o + 2)) ;;
     set_pos (p + 1)) st = Some (tt, st')
    /\ writing size header (numOfChan * frames) st'.
Proof.
  intros Hw.
  destruct (for_each_invariant
              (fun k => writing size header (k + numOfChan * frames))
              (fun i =>
                 let sample := clamp (sample_at channels i p) in
                 let sample := scale sample in
                 o <- get_offset ;;
                 on_view (DataView.setInt16 (44 + o) sample) ;;
                 set_offset (o + 2))
              (seq 0 numOfChan)) with (st := st) as (st1 & Hrun & H1).
  - intros k i st0 H0. cbv zeta.
    destruct (write_sample_ok (scale (clamp (sample_at channels i p))) H0)
      as (st' & Hs & Hw' & _).
    exists st'. split; assumption.
  - rewrite length_seq.
    replace (numOfChan + numOfChan * frames) with (numOfChan * S frames)
      by lia.
    exact Hw.
  - rewrite (@bind_run _ _ _ _ _ _ _ Hrun). unfold set_pos.
    eexists; split; [reflexivity|]. exact H1.
Qed.

Lemma write_data_ok (size : nat) (header : list Z) (st : state) :
  writing size header
    (numOfChan * (AudioBuffer.length abuffer - pos st)) st ->
  exists st',
    write_data abuffer numOfChan channels st = Some (tt, st')
    /\ List.length (view st') = size
    /\ firstn 44 (view st') = header.
Proof.
  intros Hw. unfold write_data.
  rewrite (@bind_run _ _ get_pos _ (pos st) st st eq_refl).
  destruct (for_each_invariant
              (fun k => writing size header (numOfChan * k))
              (fun p =>
                 for_each (seq 0 numOfChan) (fun i =>
                   let sample := clamp (sample_at channels i p) in
                   let sample := scale sample in
                   o <- get_offset ;;
                   on_view (DataView.setInt16 (44 + o) sample) ;;
                   set_offset (o + 2)) ;;
                 set_pos (p + 1))
              (seq (pos st) (AudioBuffer.length abuffer - pos st)))
    with (st := st) as (st1 & Hrun & (Hsize & Hhead & _)).
  - intros k p st0 H0. apply write_frame_ok, H0.
  - rewrite length_seq. exact Hw.
  - exists st1. auto.
Qed.

End WavWriterFacts.

Section HeaderFacts.

Lemma write_header_run (abuffer : AudioBuffer.t) (numOfChan length : nat)
    (rest : list Z) :
  write_header abuffer numOfChan length
    {| view := repeat 0%Z 44 ++ rest; pos := 0; offset := 0 |}
  = Some (tt, {| view := wav_header (AudioBuffer.sampleRate abuffer)
                           (Z.of_nat numOfChan) (Z.of_nat length) ++ rest;
                 pos := 44; offset := 0 |}).
Proof.
  unfold write_header, setUint32, setUint16, bind, get_pos, on_view, set_pos,
    DataView.setUint32, DataView.setUint16, wav_header.
  cbn -[Z.modulo Z.div Z.of_nat Z.mul Z.sub Z.pow].
  reflexivity.
Qed.

Lemma wav_header_length (sampleRate numOfChan length : Z) :
  List.length (wav_header sampleRate numOfChan length) = 44.
Proof. reflexivity. Qed.

Lemma getUint32_prefix (off : nat) (v : DataView.t) :
  off + 4 <= 44 ->
  DataView.getUint32 off v = DataView.getUint32 off (firstn 44 v).
Proof.
  intros H. unfold DataView.getUint32.
  rewrite firstn_skipn_prefix by exact H. reflexivity.
Qed.

Lemma getUint16_prefix (off : nat) (v : DataView.t) :
  off + 2 <= 44 ->
  DataView.getUint16 off v = DataView.getUint16 off (firstn 44 v).
Proof.
  intros H. unfold DataView.getUint16.
  rewrite firstn_skipn_prefix by exact H. reflexivity.
Qed.

Lemma tag_prefix (off : nat) (v : DataView.t) :
  off + 4 <= 44 ->
  firstn 4 (skipn off v) = firstn 4 (skipn off (firstn 44 v)).
Proof. intros H. rewrite firstn_skipn_prefix by exact H. reflexivity. Qed.

(** The two fields of the header that depend on the size of the file. *)
Lemma wav_header_sizes (sampleRate numOfChan length : Z) :
  (44 <= length < 2 ^ 32)%Z ->
  DataView.getUint32 4 (wav_header sampleRate numOfChan length)
  = (length - 8)%Z
  /\ DataView.getUint32 40 (wav_header sampleRate numOfChan length)
     = (length - 44)%Z.
Proof.
  intros Hlen. split.
  - change (DataView.getUint32 4 (wav_header sampleRate numOfChan length))
      with (DataView.from_little_endian
              (DataView.little_endian 4 ((length - 8) mod 2 ^ 32))).
    rewrite from_little_endian_inverse.
    change (2 ^ (8 * Z.of_nat 4))%Z with (2 ^ 32)%Z.
    rewrite Z.mod_mod by lia. apply Z.mod_small. lia.
  - change (DataView.getUint32 40 (wav_header sampleRate numOfChan length))
      with (DataView.from_little_endian
              (DataView.little_endian 4 ((length - 40 - 4) mod 2 ^ 32))).
    rewrite from_little_endian_inverse.
    change (2 ^ (8 * Z.of_nat 4))%Z with (2 ^ 32)%Z.
    rewrite Z.mod_mod by lia. replace (length - 40 - 4)%Z with (length - 44)%Z
      by lia.
    apply Z.mod_small. lia.
Qed.

End HeaderFacts.

(** *** Size and header of the file (C6) *)

(** C6: for a mono buffer of [N] samples at 44100 Hz whose file fits the
    32-bit length fields (44 + 2N < 2^32), whatever the samples (zero or
    not), the encoder returns, without a range error, 44 + 2N bytes that
    begin with the tag RIFF, the file length less 8, the tags WAVE and
    [fmt ], the chunk length 16, the format 1 (PCM), one channel, the
    sample rate 44100, the byte rate 44100 * 2, the block alignment 2,
    16 bits per sample, the tag [data] and the data length 2N, the numbers
    being little-endian. *)
Theorem bufferToWav_mono_layout (samples : list float) :
  let N := Z.of_nat (List.length samples) in
  (44 + 2 * N < 2 ^ 32)%Z ->
  exists bytes,
    bufferToWav (AudioBuffer.mono 44100 samples) = Some bytes
    /\ Z.of_nat (List.length bytes) = (44 + 2 * N)%Z
    /\ firstn 4 bytes = char_codes "RIFF"
    /\ DataView.getUint32 4 bytes = (Z.of_nat (List.length bytes) - 8)%Z
    /\ firstn 4 (skipn 8 bytes) = char_codes "WAVE"
    /\ firstn 4 (skipn 12 bytes) = char_codes "fmt "
    /\ DataView.getUint32 16 bytes = 16%Z
    /\ DataView.getUint16 20 bytes = 1%Z
    /\ DataView.getUint16 22 bytes = 1%Z
    /\ DataView.getUint32 24 bytes = 44100%Z
    /\ DataView.getUint32 28 bytes = (44100 * 2)%Z
    /\ DataView.getUint16 32 bytes = 2%Z
    /\ DataView.getUint16 34 bytes = 16%Z
    /\ firstn 4 (skipn 36 bytes) = char_codes "data"
    /\ DataView.getUint32 40 bytes = (2 * N)%Z.
Proof.
  intros N Hfit. unfold bufferToWav.
  change (AudioBuffer.numberOfChannels (AudioBuffer.mono 44100 samples))
    with 1.
  change (AudioBuffer.length (AudioBuffer.mono 44100 samples))
    with (List.length samples).
  set (n := List.length samples) in *.
  replace (n * 1 * 2 + 44) with (44 + 2 * n) by lia.
  unfold DataView.alloc. rewrite repeat_app.
  rewrite (@bind_run _ _ _ _ _ _ _
             (write_header_run (AudioBuffer.mono 44100 samples) 1
                (44 + 2 * n) (repeat 0%Z (2 * n)))).
  change (AudioBuffer.sampleRate (AudioBuffer.mono 44100 samples))
    with 44100%Z.
  set (header := wav_header 44100 (Z.of_nat 1) (Z.of_nat (44 + 2 * n))).
  destruct (@write_data_ok (AudioBuffer.mono 44100 samples) 1
              (map (AudioBuffer.getChannelData
                      (AudioBuffer.mono 44100 samples)) (seq 0 1))
              (44 + 2 * n) header
              {| view := header ++ repeat 0%Z (2 * n); pos := 44;
                 offset := 0 |})
    as (st & -> & Hsize & Hhead).
  { unfold writing. cbn [view pos offset AudioBuffer.length AudioBuffer.mono].
    rewrite length_app, repeat_length.
    change (List.length header) with 44.
    split; [reflexivity|]. split; [|fold n; lia].
    apply (firstn_length_app header). }
  exists (view st).
  assert (Hlen : Z.of_nat (List.length (view st)) = (44 + 2 * N)%Z)
    by (rewrite Hsize; unfold N; lia).
  destruct (@wav_header_sizes 44100 (Z.of_nat 1) (Z.of_nat (44 + 2 * n)))
    as (Hriff & Hdata); [lia|]. fold header in Hriff, Hdata.
  split; [reflexivity|]. split; [exact Hlen|].
  change (firstn 4 (view st)) with (firstn 4 (skipn 0 (view st))).
  rewrite (tag_prefix 0), (tag_prefix 8), (tag_prefix 12), (tag_prefix 36)
    by lia.
  rewrite (getUint32_prefix 4), (getUint32_prefix 16), (getUint32_prefix 24),
    (getUint32_prefix 28), (getUint32_prefix 40) by lia.
  rewrite (getUint16_prefix 20), (getUint16_prefix 22),
    (getUint16_prefix 32), (getUint16_prefix 34) by lia.
  rewrite Hhead, Hriff, Hdata, Hlen.
  repeat split; try reflexivity; lia.
Qed.

Lemma bufferToWav_mono_layout_witness :
  exists bytes,
    bufferToWav (AudioBuffer.mono 44100 (repeat 0%float 50)) = Some bytes
    /\ Z.of_nat (List.length bytes) = 144%Z
    /\ DataView.getUint32 40 bytes = 100%Z.
Proof.
  destruct (bufferToWav_mono_layout (repeat 0%float 50) eq_refl)
    as (bytes & Hb & Hlen & Hrest).
  exists bytes. split; [exact Hb|]. split; [exact Hlen|].
  apply Hrest.
Defined.

(** *** Conversion of the samples (C2) *)

(** C2 does not hold of the code.  The test on the sign is
    [0.5 + sample < 0], so a sample in [[-0.5, 0)] is scaled by 32767: the
    sample -0.25 gives -8191, where the product by 32768 truncates to
    -8192.  The samples -1 and 1 give -32768 and 32767.  Besides, the data
    loop starts at the [pos] the header left, 44: the first 44 samples of
    the buffer are never written, and the last 88 bytes of the data chunk
    stay zero. *)
Theorem bufferToWav_scaling_defect :
  scale (clamp (-0.25)) = (-8191)%Z
  /\ JsMath.truncate (-0.25 * 32768) = (-8192)%Z
  /\ scale (clamp (-1)) = (-32768)%Z
  /\ scale (clamp 1) = 32767%Z
  /\ (exists bytes,
        bufferToWav (AudioBuffer.mono 44100
                       (repeat 0%float 44 ++ [(-0.25)%float]))
        = Some bytes
        /\ DataView.getInt16 44 bytes = (-8191)%Z)
  /\ (exists bytes,
        bufferToWav (AudioBuffer.mono 44100
                       ((-1)%float :: repeat 0%float 44))
        = Some bytes
        /\ skipn 44 bytes = repeat 0%Z 90).
Proof.
  repeat split; try (vm_compute; reflexivity);
    eexists; (split; [vm_compute; reflexivity | vm_compute; reflexivity]).
Qed.

(** ** More about the codec *)

Section MoreCodecFacts.

Lemma join_Forall (P : ascii -> Prop) (sep : jsstring)
    (items : list jsstring) :
  Forall P sep -> Forall (Forall P) items -> Forall P (join sep items).
Proof.
  intros Hsep. induction 1 as [|x l Hx Hl IH]; [constructor|].
  destruct l as [|y l]; [exact Hx|].
  rewrite join_cons. apply Forall_app; split; [exact Hx|].
  apply Forall_app; split; [exact Hsep | exact IH].
Qed.

Lemma dot_or_dash_code_char (c : ascii) :
  dot_or_dash c = true -> code_char c = true.
Proof.
  unfold dot_or_dash, code_char. intros ->. reflexivity.
Qed.

Lemma char_code_code_chars (c : ascii) :
  Forall (fun a => code_char a = true) (char_code c).
Proof.
  unfold char_code. destruct (char_eqb c " ").
  - repeat constructor.
  - destruct (get MORSE_MAP [c]) as [code|] eqn:E; simpl; [|constructor].
    destruct (MORSE_MAP_entry _ E) as (_ & _ & Hcode & _).
    eapply Forall_impl; [|exact Hcode].
    intros a. apply dot_or_dash_code_char.
Qed.

(** Decoding the trimmed code string of an uppercased text. *)
Lemma decode_code_string (u : jsstring) :
  morseToText (trim (join (str " ") (map char_code u))) = strip_unmapped u.
Proof.
  pose proof (code_string_white_is_space u) as HJ.
  set (J := join (str " ") (map char_code u)) in *.
  unfold morseToText.
  rewrite <- decode_groups, <- words_of_code_string. fold J.
  rewrite <- (words_of_trim HJ).
  rewrite <- (words_of_trim (trim_Forall HJ)).
  unfold words_of. rewrite map_map. f_equal.
  apply map_ext_in. intros w Hw. apply decode_word.
  pose proof (split_pieces_Forall "/" (trim_Forall (trim_Forall HJ))) as Hp.
  rewrite Forall_forall in Hp. apply Hp, Hw.
Qed.

Lemma upper_char_idempotent (c : ascii) :
  upper_char (upper_char c) = upper_char c.
Proof.
  destruct c as [[] [] [] [] [] [] [] []]; reflexivity.
Qed.

Lemma toUpperCase_idempotent (s : jsstring) :
  toUpperCase (toUpperCase s) = toUpperCase s.
Proof.
  unfold toUpperCase. rewrite map_map. apply map_ext.
  apply upper_char_idempotent.
Qed.

Lemma upper_char_space (c : ascii) :
  char_eqb (upper_char c) " " = char_eqb c " ".
Proof.
  destruct c as [[] [] [] [] [] [] [] []]; reflexivity.
Qed.

Lemma filter_all {A : Type} (p : A -> bool) (l : list A) :
  forallb p l = true -> filter p l = l.
Proof.
  induction l as [|x l IH]; simpl; [reflexivity|].
  intros H. apply andb_true_iff in H as [Hx Hl].
  rewrite Hx, IH by assumption. reflexivity.
Qed.

(** Trimming removes white space only. *)
Lemma filter_trimStart (p : ascii -> bool) (s : jsstring) :
  (forall c, p c = true -> is_white c = false) ->
  filter p (trimStart s) = filter p s.
Proof.
  intros Hp. induction s as [|c s IH]; simpl; [reflexivity|].
  destruct (is_white c) eqn:W; [|reflexivity].
  destruct (p c) eqn:Pc; [|exact IH].
  rewrite (Hp c Pc) in W. discriminate.
Qed.

Lemma filter_trimEnd (p : ascii -> bool) (s : jsstring) :
  (forall c, p c = true -> is_white c = false) ->
  filter p (trimEnd s) = filter p s.
Proof.
  intros Hp. induction s as [|c s IH]; simpl; [reflexivity|].
  rewrite <- IH. destruct (trimEnd s) as [|d t]; [|reflexivity].
  destruct (is_white c) eqn:W; [|reflexivity].
  simpl. destruct (p c) eqn:Pc; [|reflexivity].
  rewrite (Hp c Pc) in W. discriminate.
Qed.

Lemma filter_trim (p : ascii -> bool) (s : jsstring) :
  (forall c, p c = true -> is_white c = false) ->
  filter p (trim s) = filter p s.
Proof.
  intros Hp. unfold trim.
  rewrite filter_trimEnd, filter_trimStart by exact Hp. reflexivity.
Qed.

Lemma count_separators_trim (s : jsstring) :
  count_separators (trim s) = count_separators s.
Proof.
  unfold count_separators. rewrite filter_trim; [reflexivity|].
  intros c Hc. apply char_eqb_eq in Hc. subst c. reflexivity.
Qed.

Lemma count_separators_app (a b : jsstring) :
  count_separators (a ++ b) = count_separators a + count_separators b.
Proof. unfold count_separators. rewrite filter_app, length_app. reflexivity. Qed.

Lemma count_separators_char_code (c : ascii) :
  count_separators (char_code c) = if char_eqb c " " then 1 else 0.
Proof.
  unfold char_code. destruct (char_eqb c " "); [reflexivity|].
  destruct (get MORSE_MAP [c]) as [code|] eqn:E; simpl; [|reflexivity].
  destruct (MORSE_MAP_entry _ E) as (_ & _ & Hcode & _). clear E.
  unfold count_separators. induction Hcode as [|a code Ha _ IH]; [reflexivity|].
  simpl. destruct (char_eqb a "/") eqn:Ea; [|exact IH].
  apply char_eqb_eq in Ea. subst a. discriminate.
Qed.

Lemma count_separators_code_string (u : jsstring) :
  count_separators (join (str " ") (map char_code u)) = count_spaces u.
Proof.
  unfold count_spaces.
  induction u as [|c [|c' r] IH].
  - reflexivity.
  - cbn [map join filter]. rewrite count_separators_char_code.
    destruct (char_eqb c " "); reflexivity.
  - change (map char_code (c :: c' :: r))
      with (char_code c :: map char_code (c' :: r)).
    cbn [map] in IH. cbn [map]. rewrite join_cons.
    rewrite !count_separators_app, IH, count_separators_char_code.
    cbn [filter]. destruct (char_eqb c " "); reflexivity.
Qed.

Lemma count_spaces_toUpperCase (text : jsstring) :
  count_spaces (toUpperCase text) = count_spaces text.
Proof.
  unfold count_spaces, toUpperCase.
  induction text as [|c text IH]; [reflexivity|].
  cbn [map filter]. rewrite upper_char_space.
  destruct (char_eqb c " "); simpl; congruence.
Qed.




End MoreCodecFacts.

(** X1: a code string is written with dots, dashes, spaces and separator
    tokens only, whatever the text. *)
Theorem textToMorse_alphabet (text : jsstring) :
  forallb code_char (textToMorse text) = true.
Proof.
  rewrite textToMorse_char_code. apply forallb_forall, Forall_forall.
  apply trim_Forall, join_Forall.
  - repeat constructor.
  - apply Forall_map, Forall_forall. intros c _.
    apply char_code_code_chars.
Qed.


(** X3: for a text all of whose characters, in upper case, are keys of the
    table or spaces, decoding its code string and encoding the result
    gives the code string back. *)
Theorem textToMorse_morseToText_textToMorse (text : jsstring) :
  forallb in_domain (toUpperCase text) = true ->
  textToMorse (morseToText (textToMorse text)) = textToMorse text.
Proof.
  intros Hdom.
  rewrite (textToMorse_char_code text), decode_code_string.
  unfold strip_unmapped. rewrite (filter_all _ _ Hdom).
  rewrite textToMorse_char_code, toUpperCase_idempotent. reflexivity.
Qed.

Lemma textToMorse_morseToText_textToMorse_witness :
  textToMorse (morseToText (textToMorse (str "Sos, ok?")))
  = textToMorse (str "Sos, ok?").
Proof.
  apply textToMorse_morseToText_textToMorse. reflexivity.
Defined.

(** Without that condition the second code string can differ: the
    character without code leaves a doubled space that decoding forgets. *)
Example textToMorse_morseToText_unmapped :
  textToMorse (str "A#B") = str ".-  -..."
  /\ textToMorse (morseToText (textToMorse (str "A#B"))) = str ".- -...".
Proof. split; reflexivity. Qed.

(** X4: the code string of a text has one separator token for each space of
    the text: spaces are never merged or dropped, and nothing else gives a
    separator. *)
Theorem textToMorse_separators (text : jsstring) :
  count_separators (textToMorse text) = count_spaces text.
Proof.
  rewrite textToMorse_char_code, count_separators_trim,
    count_separators_code_string.
  apply count_spaces_toUpperCase.
Qed.



(** ** More about the timing generator *)

Section AdjacentFacts.

Context {A : Type} (p : A -> bool).

Lemma adjacent_app (a b : list A) :
  adjacent p (a ++ b)
  = adjacent p a || adjacent p b || (ends_with p a && begins_with p b).
Proof.
  induction a as [|x [|y a] IH].
  - simpl. rewrite orb_false_r. reflexivity.
  - destruct b as [|z b].
    + simpl. rewrite andb_false_r. reflexivity.
    + change (adjacent p ([x] ++ z :: b))
        with ((p x && p z) || adjacent p (z :: b)).
      change (adjacent p [x]) with false.
      change (ends_with p [x]) with (p x).
      change (begins_with p (z :: b)) with (p z).
      generalize (adjacent p (z :: b)). intros r.
      destruct (p x), (p z), r; reflexivity.
  - change (adjacent p ((x :: y :: a) ++ b))
      with ((p x && p y) || adjacent p ((y :: a) ++ b)).
    rewrite IH.
    change (adjacent p (x :: y :: a))
      with ((p x && p y) || adjacent p (y :: a)).
    change (ends_with p (x :: y :: a)) with (ends_with p (y :: a)).
    rewrite <- !orb_assoc. reflexivity.
Qed.

Lemma ends_with_snoc (l : list A) (x : A) : ends_with p (l ++ [x]) = p x.
Proof.
  induction l as [|y [|z l] IH]; [reflexivity | reflexivity |].
  exact IH.
Qed.

(** Blocks without neighbours in [p], of which only the last may end with a
    [p], make a list without neighbours in [p]. *)
Lemma adjacent_flat_map_more {X : Type} (body : X -> bool -> list A)
    (xs : list X) :
  (forall x, adjacent p (body x true) = false
             /\ ends_with p (body x true) = false
             /\ adjacent p (body x false) = false) ->
  adjacent p (flat_map_more body xs) = false.
Proof.
  intros Hb. induction xs as [|x [|y xs] IH]; [reflexivity | apply Hb |].
  change (flat_map_more body (x :: y :: xs))
    with (body x true ++ flat_map_more body (y :: xs)).
  destruct (Hb x) as (H1 & H2 & _).
  rewrite adjacent_app, H1, H2, IH. reflexivity.
Qed.

Lemma adjacent_map {B : Type} (q : B -> bool) (f : A -> B) (l : list A) :
  (forall x, q (f x) = p x) -> adjacent q (map f l) = adjacent p l.
Proof.
  intros Hq. induction l as [|x [|y l] IH]; [reflexivity | reflexivity |].
  change (adjacent q (map f (x :: y :: l)))
    with ((q (f x) && q (f y)) || adjacent q (map f (y :: l))).
  rewrite IH, !Hq. reflexivity.
Qed.

End AdjacentFacts.

Section SegmentFacts.

Lemma code_segments_adjacent (char : jsstring) :
  adjacent is_signal (code_segments char) = false.
Proof.
  unfold code_segments. apply adjacent_flat_map_more.
  intros sig. repeat split; reflexivity.
Qed.

Lemma word_segments_adjacent (chars : list jsstring) :
  adjacent is_signal (word_segments chars) = false.
Proof.
  unfold word_segments. apply adjacent_flat_map_more.
  intros char. destruct (JsString.eqb char []); [repeat split; reflexivity|].
  repeat split.
  - rewrite adjacent_app, code_segments_adjacent, andb_false_r. reflexivity.
  - apply ends_with_snoc.
  - rewrite app_nil_r. apply code_segments_adjacent.
Qed.

Lemma segments_adjacent (morse : jsstring) :
  adjacent is_signal (segments morse) = false.
Proof.
  unfold segments. apply adjacent_flat_map_more.
  intros word. repeat split.
  - rewrite adjacent_app, word_segments_adjacent, andb_false_r. reflexivity.
  - apply ends_with_snoc.
  - rewrite app_nil_r. apply word_segments_adjacent.
Qed.

Lemma split_length (sep : ascii) (s : jsstring) :
  List.length (split sep s)
  = S (List.length (filter (fun c => char_eqb c sep) s)).
Proof.
  induction s as [|c s IH]; [reflexivity|].
  cbn [split filter]. destruct (char_eqb c sep); cbn [List.length].
  - rewrite IH. reflexivity.
  - destruct (split sep s) as [|w ws]; [discriminate|]. exact IH.
Qed.

Lemma filter_word_gap_code (char : jsstring) :
  filter is_word_gap (code_segments char) = [].
Proof.
  unfold code_segments.
  rewrite (flat_map_more_hom (filter is_word_gap) _ _ eq_refl
             (fun a b => filter_app is_word_gap a b)).
  rewrite (flat_map_more_flat_map _ (fun _ => [])).
  - induction char; simpl; auto.
  - intros c more. destruct more; reflexivity.
Qed.

Lemma filter_word_gap_word (chars : list jsstring) :
  filter is_word_gap (word_segments chars) = [].
Proof.
  unfold word_segments.
  rewrite (flat_map_more_hom (filter is_word_gap) _ _ eq_refl
             (fun a b => filter_app is_word_gap a b)).
  rewrite (flat_map_more_flat_map _ (fun _ => [])).
  - induction chars; simpl; auto.
  - intros char more. destruct (JsString.eqb char []); [reflexivity|].
    rewrite filter_app, filter_word_gap_code. destruct more; reflexivity.
Qed.

Lemma flat_map_more_last_only {X B : Type} (b : B) (xs : list X) :
  flat_map_more (fun _ more => if more then [b] else []) xs
  = repeat b (List.length xs - 1).
Proof.
  induction xs as [|x [|y xs] IH]; [reflexivity | reflexivity |].
  change (flat_map_more ?f (x :: y :: xs))
    with (f x true ++ flat_map_more f (y :: xs)).
  rewrite IH. cbn [List.length]. rewrite !Nat.sub_succ, !Nat.sub_0_r.
  reflexivity.
Qed.

Lemma count_word_gaps_segments (morse : jsstring) :
  count_word_gaps (segments morse) = count_separators morse.
Proof.
  unfold count_word_gaps, segments.
  rewrite (flat_map_more_hom (filter is_word_gap) _ _ eq_refl
             (fun a b => filter_app is_word_gap a b)).
  rewrite (flat_map_more_ext _
             (fun _ more => if more then [WordGap] else [])).
  - rewrite flat_map_more_last_only, repeat_length, split_length.
    unfold count_separators. simpl. apply Nat.sub_0_r.
  - intros word more. rewrite filter_app, filter_word_gap_word.
    destruct more; reflexivity.
Qed.

(** The symbols of a code string whose only white space is the space are
    the characters of its codes. *)
Lemma concat_filter_nonempty (l : list jsstring) :
  List.concat (filter (fun code => negb (JsString.eqb code [])) l)
  = List.concat l.
Proof.
  induction l as [|x l IH]; [reflexivity|].
  destruct x as [|c x]; cbn [filter JsString.eqb negb List.concat];
    rewrite IH; reflexivity.
Qed.

Lemma symbols_words_of (morse : jsstring) :
  Forall white_is_space morse ->
  symbols morse = List.concat (map (@List.concat ascii) (words_of morse)).
Proof.
  intros Hm. unfold symbols, words_of.
  rewrite flat_map_concat_map, map_map. f_equal.
  apply map_ext_in. intros w Hw.
  transitivity (List.concat (codes_of (trim w))).
  - unfold codes_of. symmetry. apply concat_filter_nonempty.
  - rewrite codes_of_trim; [reflexivity|].
    pose proof (split_pieces_Forall "/" Hm) as Hp.
    rewrite Forall_forall in Hp. apply Hp, Hw.
Qed.

Lemma MORSE_MAP_no_space : get MORSE_MAP (str " ") = None.
Proof. vm_compute. reflexivity. Qed.

Lemma concat_groups (u : jsstring) :
  List.concat (map (@List.concat ascii) (groups u))
  = flat_map (fun c => or_empty (get MORSE_MAP [c])) u.
Proof.
  induction u as [|c r IH]; [reflexivity|].
  cbn [groups flat_map]. destruct (char_eqb c " ") eqn:Ec.
  - apply char_eqb_eq in Ec. subst c.
    change (get MORSE_MAP [" "%char]) with (get MORSE_MAP (str " ")).
    rewrite MORSE_MAP_no_space. cbn [map List.concat or_empty app].
    exact IH.
  - destruct (get MORSE_MAP [c]) as [code|]; cbn [or_empty]; [|exact IH].
    pose proof (groups_nonempty r) as Hne.
    destruct (groups r) as [|g gs]; [congruence|].
    cbn [map List.concat] in *. rewrite <- IH, app_assoc. reflexivity.
Qed.

Lemma symbols_textToMorse (text : jsstring) :
  symbols (textToMorse text)
  = flat_map (fun c => or_empty (get MORSE_MAP [c])) (toUpperCase text).
Proof.
  rewrite textToMorse_char_code.
  pose proof (code_string_white_is_space (toUpperCase text)) as HJ.
  rewrite (symbols_words_of (trim_Forall HJ)), (words_of_trim HJ).
  rewrite words_of_code_string. apply concat_groups.
Qed.

Lemma codes_dots_dashes (u : jsstring) :
  forallb dot_or_dash (flat_map (fun c => or_empty (get MORSE_MAP [c])) u)
  = true.
Proof.
  induction u as [|c r IH]; [reflexivity|].
  cbn [flat_map]. rewrite forallb_app, IH, andb_true_r.
  destruct (get MORSE_MAP [c]) as [code|] eqn:E; [|reflexivity].
  destruct (MORSE_MAP_entry _ E) as (_ & _ & Hcode & _).
  apply forallb_forall. rewrite Forall_forall in Hcode. exact Hcode.
Qed.

End SegmentFacts.

(** X6: two signals never follow each other: in every timing sequence, for
    every code string and configuration, a gap stands between any two
    signals. *)
Theorem generateTimingSequence_signals_apart {num : Type} `{JsNumber num}
    (morse : jsstring) (config : AppConfig num) :
  adjacent is_on (generateTimingSequence morse config) = false.
Proof.
  rewrite generateTimingSequence_segments.
  rewrite (adjacent_map is_signal).
  - apply segments_adjacent.
  - intros [sig| | |]; reflexivity.
Qed.

(** X7: every separator token of a code string gives one word gap, whatever is
    around it; so the timing sequence of the code string of a text has one
    word gap for each space of the text. *)
Theorem generateTimingSequence_word_gaps {num : Type} `{JsNumber num}
    (morse text : jsstring) (config : AppConfig num) :
  generateTimingSequence morse config
  = map (render (unitMs config) (farnsworthUnitMs config)) (segments morse)
  /\ count_word_gaps (segments morse) = count_separators morse
  /\ count_word_gaps (segments (textToMorse text)) = count_spaces text.
Proof.
  split; [apply generateTimingSequence_segments|].
  split; [apply count_word_gaps_segments|].
  rewrite count_word_gaps_segments, textToMorse_char_code,
    count_separators_trim, count_separators_code_string.
  apply count_spaces_toUpperCase.
Qed.

(** X8: encoding a text and timing the result: the signals are those of the
    dots and dashes of the codes of the characters of the text, in order;
    a character without code gives none, and no signal stands for anything
    but a dot or a dash. *)
Theorem timing_of_text {num : Type} `{JsNumber num}
    (text : jsstring) (config : AppConfig num) :
  let codes :=
    flat_map (fun c => or_empty (get MORSE_MAP [c])) (toUpperCase text) in
  forallb dot_or_dash codes = true
  /\ filter is_on (generateTimingSequence (textToMorse text) config)
     = map (fun sig =>
              event on (if char_eqb sig "-"
                        then mul (lit 3) (unitMs config)
                        else mul (lit 1) (unitMs config)))
         codes.
Proof.
  intros codes. split; [apply codes_dots_dashes|].
  rewrite generateTimingSequence_segments, on_events_of_segments.
  rewrite symbols_textToMorse. reflexivity.
Qed.

Section TrimFacts.

Lemma trimStart_white_prefix (ws s : jsstring) :
  forallb is_white ws = true -> trimStart (ws ++ s) = trimStart s.
Proof.
  induction ws as [|c ws IH]; simpl; [reflexivity|].
  intros H. apply andb_true_iff in H as [Hc Hws]. rewrite Hc. auto.
Qed.

Lemma trimEnd_all_white (ws : jsstring) :
  forallb is_white ws = true -> trimEnd ws = [].
Proof.
  induction ws as [|c ws IH]; simpl; [reflexivity|].
  intros H. apply andb_true_iff in H as [Hc Hws].
  rewrite (IH Hws), Hc. reflexivity.
Qed.

Lemma trimEnd_white_suffix (s ws : jsstring) :
  forallb is_white ws = true -> trimEnd (s ++ ws) = trimEnd s.
Proof.
  intros Hws. induction s as [|c s IH]; simpl.
  - apply trimEnd_all_white, Hws.
  - rewrite IH. reflexivity.
Qed.

Lemma trim_white_prefix (ws s : jsstring) :
  forallb is_white ws = true -> trim (ws ++ s) = trim s.
Proof. intros H. unfold trim. rewrite trimStart_white_prefix; auto. Qed.

Lemma trim_white_suffix (s ws : jsstring) :
  forallb is_white ws = true -> trim (s ++ ws) = trim s.
Proof.
  intros Hws. unfold trim. induction s as [|c s IH]; simpl.
  - rewrite trimStart_all_white by exact Hws. reflexivity.
  - destruct (is_white c); [exact IH|].
    apply (trimEnd_white_suffix (c :: s) ws Hws).
Qed.

Lemma trimStart_white_split (s : jsstring) :
  exists ws, forallb is_white ws = true /\ s = ws ++ trimStart s.
Proof.
  induction s as [|c s (ws & Hws & IH)]; simpl; [exists []; auto|].
  destruct (is_white c) eqn:W.
  - exists (c :: ws). split; [simpl; rewrite W; exact Hws|].
    simpl. congruence.
  - exists []. auto.
Qed.

Lemma trimEnd_white_split (s : jsstring) :
  exists ws, forallb is_white ws = true /\ s = trimEnd s ++ ws.
Proof.
  induction s as [|c s (ws & Hws & IH)]; simpl; [exists []; auto|].
  destruct (trimEnd s) as [|d t].
  - simpl in IH. destruct (is_white c) eqn:W.
    + exists (c :: ws). split; [simpl; rewrite W; exact Hws|].
      simpl. congruence.
    + exists ws. split; [exact Hws|]. simpl. congruence.
  - exists ws. split; [exact Hws|]. rewrite IH at 1. reflexivity.
Qed.

Lemma white_no_separator (ws : jsstring) :
  forallb is_white ws = true -> Forall (fun c => c <> "/"%char) ws.
Proof.
  intros H. apply Forall_forall. intros c Hc ->.
  rewrite forallb_forall in H. specialize (H _ Hc). discriminate.
Qed.

Lemma split_app_last (sep : ascii) (s ws : jsstring) :
  Forall (fun c => c <> sep) ws ->
  split sep (s ++ ws) = app_last (split sep s) ws.
Proof.
  intros Hws. induction s as [|c s IH]; simpl.
  - apply split_free, Hws.
  - rewrite IH. destruct (split_nonempty sep s) as (w & l & ->).
    destruct (char_eqb c sep); simpl; [reflexivity|].
    destruct l; reflexivity.
Qed.

Lemma map_trim_app_last (l : list jsstring) (ws : jsstring) :
  forallb is_white ws = true -> map trim (app_last l ws) = map trim l.
Proof.
  intros Hws. induction l as [|w [|w' l] IH]; simpl in *;
    [reflexivity | rewrite trim_white_suffix by exact Hws; reflexivity
    | rewrite IH; reflexivity].
Qed.

(** Trimming a code string changes its words by white space at the ends of
    the first and of the last only. *)
Lemma map_trim_split_trim (morse : jsstring) :
  map trim (split "/" (trim morse)) = map trim (split "/" morse).
Proof.
  destruct (trimStart_white_split morse) as (ws1 & H1 & E1).
  destruct (trimEnd_white_split (trimStart morse)) as (ws2 & H2 & E2).
  fold (trim morse) in E2.
  rewrite E1 at 2. rewrite E2.
  rewrite (@split_app_free "/" ws1 _ (@white_no_separator ws1 H1)).
  rewrite (@split_app_last "/" _ ws2 (@white_no_separator ws2 H2)).
  destruct (split_nonempty "/" (trim morse)) as (w & l & E).
  rewrite E.
  destruct (app_last (w :: l) ws2) as [|w' l'] eqn:E'.
  - destruct l; discriminate.
  - cbn [map]. rewrite trim_white_prefix by exact H1.
    change (trim w' :: map trim l') with (map trim (w' :: l')).
    rewrite <- E', map_trim_app_last by exact H2. reflexivity.
Qed.

Lemma flat_map_more_of_map {X Y B : Type} (f : X -> Y)
    (body : Y -> bool -> list B) (xs : list X) :
  flat_map_more body (map f xs)
  = flat_map_more (fun x more => body (f x) more) xs.
Proof.
  induction xs as [|x [|y xs] IH]; [reflexivity | reflexivity |].
  cbn [map] in *.
  change (flat_map_more ?bb (?a :: ?c :: ?t))
    with (bb a true ++ flat_map_more bb (c :: t)).
  rewrite IH. reflexivity.
Qed.

Lemma segments_trim (morse : jsstring) :
  segments (trim morse) = segments morse.
Proof.
  unfold segments.
  rewrite <- (flat_map_more_of_map trim
                (fun t more =>
                   word_segments (split " " t)
                   ++ (if more then [WordGap] else []))
                (split "/" (trim morse))).
  rewrite <- (flat_map_more_of_map trim
                (fun t more =>
                   word_segments (split " " t)
                   ++ (if more then [WordGap] else []))
                (split "/" morse)).
  rewrite map_trim_split_trim. reflexivity.
Qed.

End TrimFacts.

(** X9: white space at the ends of a code string changes nothing of its timing
    sequence. *)
Theorem generateTimingSequence_trim {num : Type} `{JsNumber num}
    (morse : jsstring) (config : AppConfig num) :
  generateTimingSequence (trim morse) config
  = generateTimingSequence morse config.
Proof.
  rewrite !generateTimingSequence_segments, segments_trim. reflexivity.
Qed.

Section ExactTotals.

Open Scope Q_scope.









End ExactTotals.




(** The word PARIS with the gap that follows it is 50 units long, the
    definition of a word in words per minute. *)
Example PARIS_units :
  let segs := segments (textToMorse (str "PARIS ")) in
  (total_units signal_units segs + total_units spacing_units segs = 50)%Z.
Proof. reflexivity. Qed.



(** ** More about the WAV encoder *)

Section WavContents.

Lemma overwrite_zeros (bs : list Z) (k : nat) :
  DataView.overwrite bs (repeat 0%Z (List.length bs + k))
  = Some (bs ++ repeat 0%Z k).
Proof.
  induction bs as [|b bs IH]; simpl; [reflexivity|].
  rewrite IH. reflexivity.
Qed.

Lemma store_zeros (pre bs : list Z) (k : nat) :
  DataView.store (List.length pre) bs
    (pre ++ repeat 0%Z (List.length bs + k))
  = Some (pre ++ bs ++ repeat 0%Z k).
Proof.
  induction pre as [|x pre IH]; simpl.
  - apply overwrite_zeros.
  - rewrite IH. reflexivity.
Qed.

(** A loop each of whose steps appends its bytes to the data. *)
Lemma for_each_appends {A : Type} (header : list Z) (g : A -> list Z)
    (body : A -> M unit) (xs : list A) :
  (forall x data k st,
      written header data (List.length (g x) + k) st ->
      exists st', body x st = Some (tt, st')
                  /\ written header (data ++ g x) k st') ->
  forall data k st,
    written header data (List.length (flat_map g xs) + k) st ->
    exists st', for_each xs body st = Some (tt, st')
                /\ written header (data ++ flat_map g xs) k st'.
Proof.
  intros Hstep. induction xs as [|x xs IH]; intros data k st Hw.
  - exists st. split; [reflexivity|]. rewrite app_nil_r. exact Hw.
  - cbn [flat_map] in Hw. rewrite length_app, <- Nat.add_assoc in Hw.
    destruct (Hstep _ _ _ _ Hw) as (st1 & Hb & H1).
    destruct (IH _ _ _ H1) as (st2 & Hrun & H2).
    exists st2. split.
    + cbn [for_each]. rewrite (@bind_run _ _ _ _ _ _ _ Hb). exact Hrun.
    + cbn [flat_map]. rewrite app_assoc. exact H2.
Qed.

Variable abuffer : AudioBuffer.t.
Variable numOfChan : nat.
Variable channels : list (list float).
Variable header : list Z.

Lemma write_sample_appends (sample : float) (data : list Z) (k : nat)
    (st : state) :
  written header data (List.length (pcm16 sample) + k) st ->
  exists st',
    (o <- get_offset ;;
     on_view (DataView.setInt16 (44 + o) (scale (clamp sample))) ;;
     set_offset (o + 2)) st = Some (tt, st')
    /\ written header (data ++ pcm16 sample) k st'.
Proof.
  intros (Hview & Hoff).
  unfold bind, get_offset, on_view, set_offset, DataView.setInt16.
  fold (pcm16 sample).
  rewrite Hview, Hoff, app_assoc, <- length_app, store_zeros.
  eexists; split; [reflexivity|]. unfold written. cbn [view offset].
  split; [rewrite <- !app_assoc; reflexivity|].
  rewrite length_app. change (List.length (pcm16 sample)) with 2. lia.
Qed.

Lemma write_frame_appends (p : nat) (data : list Z) (k : nat) (st : state) :
  written header data
    (List.length
       (flat_map (fun i => pcm16 (sample_at channels i p))
          (seq 0 numOfChan)) + k) st ->
  exists st',
    (for_each (seq 0 numOfChan) (fun i =>
       let sample := clamp (sample_at channels i p) in
       let sample := scale sample in
       o <- get_offset ;;
       on_view (DataView.setInt16 (44 + o) sample) ;;
       set_offset (o + 2)) ;;
     set_pos (p + 1)) st = Some (tt, st')
    /\ written header
         (data ++ flat_map (fun i => pcm16 (sample_at channels i p))
                    (seq 0 numOfChan)) k st'.
Proof.
  intros Hw.
  destruct (@for_each_appends nat header
              (fun i => pcm16 (sample_at channels i p))
              (fun i =>
                 let sample := clamp (sample_at channels i p) in
                 let sample := scale sample in
                 o <- get_offset ;;
                 on_view (DataView.setInt16 (44 + o) sample) ;;
                 set_offset (o + 2))
              (seq 0 numOfChan)) with (data := data) (k := k) (st := st)
    as (st1 & Hrun & H1).
  - intros i d k' st0 H0. cbv zeta. apply write_sample_appends, H0.
  - exact Hw.
  - rewrite (@bind_run _ _ _ _ _ _ _ Hrun). unfold set_pos.
    eexists; split; [reflexivity|]. exact H1.
Qed.

Lemma write_data_appends (k : nat) (st : state) :
  written header []
    (List.length
       (frames_data channels numOfChan (pos st) (AudioBuffer.length abuffer))
     + k) st ->
  exists st',
    write_data abuffer numOfChan channels st = Some (tt, st')
    /\ view st'
       = header
         ++ frames_data channels numOfChan (pos st)
              (AudioBuffer.length abuffer)
         ++ repeat 0%Z k.
Proof.
  intros Hw. unfold write_data.
  rewrite (@bind_run _ _ get_pos _ (pos st) st st eq_refl).
  destruct (@for_each_appends nat header
              (fun p =>
                 flat_map (fun i => pcm16 (sample_at channels i p))
                   (seq 0 numOfChan))
              (fun p =>
                 for_each (seq 0 numOfChan) (fun i =>
                   let sample := clamp (sample_at channels i p) in
                   let sample := scale sample in
                   o <- get_offset ;;
                   on_view (DataView.setInt16 (44 + o) sample) ;;
                   set_offset (o + 2)) ;;
                 set_pos (p + 1))
              (seq (pos st) (AudioBuffer.length abuffer - pos st)))
    with (data := @nil Z) (k := k) (st := st) as (st1 & Hrun & (Hv & _)).
  - intros p d k' st0 H0. apply write_frame_appends, H0.
  - exact Hw.
  - exists st1. split; [exact Hrun|]. exact Hv.
Qed.

End WavContents.

Section WavOutput.

Lemma flat_map_ext_in {A B : Type} (f g : A -> list B) (l : list A) :
  (forall a, In a l -> f a = g a) -> flat_map f l = flat_map g l.
Proof.
  induction l as [|x l IH]; intros H; [reflexivity|].
  cbn [flat_map]. rewrite (H x) by (left; reflexivity).
  rewrite IH; [reflexivity|]. intros a Ha. apply H. right; exact Ha.
Qed.

Lemma pcm16_frame_length (channels : list (list float)) (a c p : nat) :
  List.length
    (flat_map (fun i => pcm16 (sample_at channels i p)) (seq a c))
  = 2 * c.
Proof.
  revert a. induction c as [|c IH]; intros a; [reflexivity|].
  cbn [seq flat_map]. rewrite length_app, IH.
  change (List.length (pcm16 (sample_at channels a p))) with 2. lia.
Qed.

Lemma frames_data_length (channels : list (list float))
    (c start n : nat) :
  List.length (frames_data channels c start n) = 2 * c * (n - start).
Proof.
  unfold frames_data. generalize (n - start) as m. intros m. revert start.
  induction m as [|m IH]; intros start; [cbn; lia|].
  cbn [seq flat_map]. rewrite length_app, IH, pcm16_frame_length. lia.
Qed.

(** What [bufferToWav] returns, for every buffer: the header, the samples
    from position 44 on, and as many zero bytes as 44 frames take (fewer
    when the buffer is shorter than 44). *)
Lemma bufferToWav_output (abuffer : AudioBuffer.t) :
  let c := AudioBuffer.numberOfChannels abuffer in
  let n := AudioBuffer.length abuffer in
  bufferToWav abuffer
  = Some (wav_header (AudioBuffer.sampleRate abuffer) (Z.of_nat c)
            (Z.of_nat (n * c * 2 + 44))
          ++ frames_data (AudioBuffer.channelData abuffer) c 44 n
          ++ repeat 0%Z (2 * c * Nat.min 44 n)).
Proof.
  intros c n. unfold bufferToWav. fold c. fold n.
  assert (Hch : map (AudioBuffer.getChannelData abuffer) (seq 0 c)
                = AudioBuffer.channelData abuffer).
  { unfold AudioBuffer.getChannelData, c, AudioBuffer.numberOfChannels.
    apply nth_ext with (d := []) (d' := []).
    - rewrite length_map, length_seq. reflexivity.
    - intros i Hi. rewrite length_map, length_seq in Hi.
      rewrite (nth_indep _ [] (nth 0 (AudioBuffer.channelData abuffer) [])).
      + rewrite (map_nth (fun i => nth i (AudioBuffer.channelData abuffer) [])).
        rewrite seq_nth by exact Hi. reflexivity.
      + rewrite length_map, length_seq. exact Hi. }
  rewrite Hch.
  set (len := n * c * 2 + 44).
  assert (Hzeros : DataView.alloc len
                   = repeat 0%Z 44
                     ++ repeat 0%Z
                          (List.length
                             (frames_data (AudioBuffer.channelData abuffer)
                                c 44 n)
                           + 2 * c * Nat.min 44 n)).
  { unfold DataView.alloc. rewrite <- repeat_app. f_equal.
    rewrite frames_data_length. unfold len.
    assert (Hn : n = (n - 44) + Nat.min 44 n) by lia.
    rewrite Hn at 1. lia. }
  rewrite Hzeros.
  rewrite (@bind_run _ _ _ _ _ _ _
             (write_header_run abuffer c len _)).
  destruct (@write_data_appends abuffer c (AudioBuffer.channelData abuffer)
              (wav_header (AudioBuffer.sampleRate abuffer) (Z.of_nat c)
                 (Z.of_nat len))
              (2 * c * Nat.min 44 n)
              {| view := wav_header (AudioBuffer.sampleRate abuffer)
                           (Z.of_nat c) (Z.of_nat len)
                         ++ repeat 0%Z
                              (List.length
                                 (frames_data
                                    (AudioBuffer.channelData abuffer)
                                    c 44 n)
                               + 2 * c * Nat.min 44 n);
                 pos := 44; offset := 0 |})
    as (st & -> & Hview).
  - split; reflexivity.
  - rewrite Hview. reflexivity.
Qed.

Lemma bufferToWav_size_of (abuffer : AudioBuffer.t) :
  exists bytes,
    bufferToWav abuffer = Some bytes
    /\ List.length bytes
       = 44 + 2 * (AudioBuffer.length abuffer
                   * AudioBuffer.numberOfChannels abuffer)
    /\ firstn 44 bytes
       = wav_header (AudioBuffer.sampleRate abuffer)
           (Z.of_nat (AudioBuffer.numberOfChannels abuffer))
           (Z.of_nat (AudioBuffer.length abuffer
                      * AudioBuffer.numberOfChannels abuffer * 2 + 44)).
Proof.
  rewrite bufferToWav_output. eexists; split; [reflexivity|]. split.
  - rewrite !length_app, wav_header_length, frames_data_length,
      repeat_length.
    set (n := AudioBuffer.length abuffer).
    set (c := AudioBuffer.numberOfChannels abuffer).
    assert (Hn : n = (n - 44) + Nat.min 44 n) by lia.
    rewrite Hn at 3. lia.
  - apply (firstn_length_app (wav_header _ _ _)).
Qed.

End WavOutput.

Section WavHeaderFields.

Variables sampleRate numOfChan length : Z.

Let header := wav_header sampleRate numOfChan length.

Lemma header_prefix (rest : list Z) : firstn 44 (header ++ rest) = header.
Proof. apply (firstn_length_app header). Qed.

Lemma from_little_endian_small (n : nat) (v : Z) :
  (0 <= v < 2 ^ (8 * Z.of_nat n))%Z ->
  DataView.from_little_endian
    (DataView.little_endian n (v mod 2 ^ (8 * Z.of_nat n)))
  = v.
Proof.
  intros Hv. rewrite from_little_endian_inverse, Z.mod_mod by lia.
  apply Z.mod_small, Hv.
Qed.

Lemma header_channels :
  (0 <= numOfChan < 2 ^ 16)%Z -> DataView.getUint16 22 header = numOfChan.
Proof. intros H. apply (from_little_endian_small 2), H. Qed.

Lemma header_sampleRate :
  (0 <= sampleRate < 2 ^ 32)%Z -> DataView.getUint32 24 header = sampleRate.
Proof. intros H. apply (from_little_endian_small 4), H. Qed.

Lemma header_byteRate :
  (0 <= sampleRate * 2 * numOfChan < 2 ^ 32)%Z ->
  DataView.getUint32 28 header = (sampleRate * 2 * numOfChan)%Z.
Proof. intros H. apply (from_little_endian_small 4), H. Qed.

Lemma header_blockAlign :
  (0 <= numOfChan * 2 < 2 ^ 16)%Z ->
  DataView.getUint16 32 header = (numOfChan * 2)%Z.
Proof. intros H. apply (from_little_endian_small 2), H. Qed.

End WavHeaderFields.

(** X13: for every buffer, whatever its channels hold, the encoder raises no
    range error and returns 44 bytes and two more for each sample of each
    channel. *)
Theorem bufferToWav_size (abuffer : AudioBuffer.t) :
  exists bytes,
    bufferToWav abuffer = Some bytes
    /\ List.length bytes
       = 44 + 2 * (AudioBuffer.length abuffer
                   * AudioBuffer.numberOfChannels abuffer).
Proof.
  destruct (bufferToWav_size_of abuffer) as (bytes & Hb & Hlen & _).
  exists bytes. split; assumption.
Qed.

(** X14: the bytes of the file, for every buffer: the header; then, for each
    position from 44 on, the sample of each channel clamped, scaled and
    written as 16 bits, least significant byte first; then zero bytes in
    the place of the samples of the positions before 44, which are never
    written. *)
Theorem bufferToWav_contents (abuffer : AudioBuffer.t) :
  let c := AudioBuffer.numberOfChannels abuffer in
  let n := AudioBuffer.length abuffer in
  bufferToWav abuffer
  = Some (wav_header (AudioBuffer.sampleRate abuffer) (Z.of_nat c)
            (Z.of_nat (n * c * 2 + 44))
          ++ frames_data (AudioBuffer.channelData abuffer) c 44 n
          ++ repeat 0%Z (2 * c * Nat.min 44 n)).
Proof. apply bufferToWav_output. Qed.

(** X15: the first 44 samples of a mono buffer have no part in the file: two
    buffers that differ in them only are encoded alike. *)
Theorem bufferToWav_ignores_first_samples (rate : Z)
    (first first' rest : list float) :
  List.length first = 44 -> List.length first' = 44 ->
  bufferToWav (AudioBuffer.mono rate (first ++ rest))
  = bufferToWav (AudioBuffer.mono rate (first' ++ rest)).
Proof.
  intros H1 H2.
  assert (Hdata : forall n,
             frames_data [first ++ rest] 1 44 n
             = frames_data [first' ++ rest] 1 44 n).
  { intros n. unfold frames_data.
    apply flat_map_ext_in. intros p Hp. apply in_seq in Hp.
    cbn [seq flat_map]. rewrite !app_nil_r. unfold pcm16, sample_at.
    cbn [nth]. rewrite !app_nth2 by lia. rewrite H1, H2. reflexivity. }
  rewrite !bufferToWav_output.
  cbn [AudioBuffer.mono AudioBuffer.numberOfChannels AudioBuffer.length
       AudioBuffer.channelData AudioBuffer.sampleRate List.length].
  rewrite !length_app, H1, H2, Hdata. reflexivity.
Qed.

Lemma bufferToWav_ignores_first_samples_witness :
  bufferToWav
    (AudioBuffer.mono 44100 (repeat 1%float 44 ++ [0.5%float]))
  = bufferToWav
      (AudioBuffer.mono 44100 (repeat 0%float 44 ++ [0.5%float])).
Proof.
  apply bufferToWav_ignores_first_samples; reflexivity.
Defined.

(** X16: the header of the file of any buffer whose sizes fit their fields:
    the channel count, the sample rate, a byte rate that is the sample rate
    times the block alignment, a block alignment of two bytes for each
    channel, 16 bits per sample, and the two lengths, of the file less 8
    and of the data. *)
Theorem bufferToWav_header (abuffer : AudioBuffer.t) :
  let c := Z.of_nat (AudioBuffer.numberOfChannels abuffer) in
  let n := Z.of_nat (AudioBuffer.length abuffer) in
  let rate := AudioBuffer.sampleRate abuffer in
  (0 <= rate < 2 ^ 32)%Z ->
  (rate * 2 * c < 2 ^ 32)%Z ->
  (c * 2 < 2 ^ 16)%Z ->
  (44 + 2 * (n * c) < 2 ^ 32)%Z ->
  exists bytes,
    bufferToWav abuffer = Some bytes
    /\ DataView.getUint32 4 bytes = (Z.of_nat (List.length bytes) - 8)%Z
    /\ DataView.getUint16 20 bytes = 1%Z
    /\ DataView.getUint16 22 bytes = c
    /\ DataView.getUint32 24 bytes = rate
    /\ DataView.getUint32 28 bytes = (rate * DataView.getUint16 32 bytes)%Z
    /\ DataView.getUint16 32 bytes = (2 * c)%Z
    /\ DataView.getUint16 34 bytes = 16%Z
    /\ DataView.getUint32 40 bytes = (Z.of_nat (List.length bytes) - 44)%Z.
Proof.
  intros c n rate Hrate Hbytes Hblock Hfit.
  destruct (bufferToWav_size_of abuffer) as (bytes & Hb & Hlen & Hhead).
  exists bytes. split; [exact Hb|].
  fold rate in Hhead. fold c in Hhead.
  assert (Htotal : Z.of_nat (List.length bytes) = (44 + 2 * (n * c))%Z)
    by (rewrite Hlen; unfold n, c; lia).
  set (len := Z.of_nat (AudioBuffer.length abuffer
                        * AudioBuffer.numberOfChannels abuffer * 2 + 44))
    in Hhead.
  assert (Hlen' : len = (44 + 2 * (n * c))%Z) by (unfold len, n, c; lia).
  destruct (@wav_header_sizes rate c len) as (Hriff & Hdata); [lia|].
  rewrite (getUint32_prefix 4), (getUint32_prefix 24), (getUint32_prefix 28),
    (getUint32_prefix 40) by lia.
  rewrite (getUint16_prefix 20), (getUint16_prefix 22),
    (getUint16_prefix 32), (getUint16_prefix 34) by lia.
  rewrite Hhead, Hriff, Hdata, Htotal.
  rewrite header_channels, header_sampleRate, header_byteRate,
    header_blockAlign by lia.
  repeat split; try reflexivity; lia.
Qed.

Lemma bufferToWav_header_witness :
  exists bytes,
    bufferToWav
      {| AudioBuffer.sampleRate := 48000; AudioBuffer.length := 3;
         AudioBuffer.channelData :=
           [[0%float; 0.5%float; 1%float]; [0%float; 0%float; 0%float]] |}
    = Some bytes
    /\ DataView.getUint16 22 bytes = 2%Z
    /\ DataView.getUint32 28 bytes = 192000%Z.
Proof.
  destruct (bufferToWav_header
              {| AudioBuffer.sampleRate := 48000; AudioBuffer.length := 3;
                 AudioBuffer.channelData :=
                   [[0%float; 0.5%float; 1%float];
                    [0%float; 0%float; 0%float]] |})
    as (bytes & Hb & _ & _ & Hc & _ & Hrate & Hblock & _).
  1-4: vm_compute; repeat split; (discriminate || reflexivity).
  exists bytes. split; [exact Hb|]. split; [exact Hc|].
  rewrite Hrate, Hblock. reflexivity.
Defined.

(** ** The offline rendering *)

Section RenderingFacts.


Open Scope Q_scope.




Variable config : AppConfig Q.







End RenderingFacts.

Section EnvelopeFacts.

Open Scope Q_scope.



Variable config : AppConfig Q.





End EnvelopeFacts.





(** Above 120 words per minute a dot is shorter than the two ramps: at 240
    the gain is set to the level at time 0, before the ramp up ends. *)
Example envelope_overlaps_at_240_wpm :
  ~ ascending 0
      (map gain_time (gainCalls (renderAudioToWav_setup (str ".") exact_240)))
      (totalDurationMs (generateTimingSequence (str ".") exact_240) / 1000).
Proof.
  intros (_ & _ & H & _). vm_compute in H. apply H. reflexivity.
Qed.

(** * App.tsx: the options *)

Section OptionFacts.

Import App.

Lemma toggleOption_output (key : OptionKey) (prev : PlayOptions) :
  enableSound prev || enableLight prev = true ->
  enableSound (toggleOption key prev) || enableLight (toggleOption key prev)
  = true.
Proof.
  destruct prev as [[] [] v l], key; cbn; intros E;
    (reflexivity || discriminate E).
Qed.

(** X19: whatever options are toggled, in whatever order, sound or light
    stays enabled, if one of them was. *)
Theorem toggleOption_keeps_an_output (keys : list OptionKey)
    (prev : PlayOptions) :
  enableSound prev || enableLight prev = true ->
  let opts := fold_left (fun o key => toggleOption key o) keys prev in
  enableSound opts || enableLight opts = true.
Proof.
  cbv zeta. revert prev.
  induction keys as [|key keys IH]; intros prev E; [exact E|].
  cbn [fold_left]. apply IH, toggleOption_output, E.
Qed.

Lemma toggleOption_keeps_an_output_witness :
  enableSound initial_options || enableLight initial_options = true /\
  let opts :=
    fold_left (fun o key => toggleOption key o)
      [key_enableSound; key_enableLight; key_enableLight; key_enableVibrate]
      initial_options in
  enableSound opts || enableLight opts = true.
Proof.
  split; [reflexivity|].
  apply (toggleOption_keeps_an_output
           [key_enableSound; key_enableLight; key_enableLight;
            key_enableVibrate] initial_options).
  reflexivity.
Defined.

(** X20: toggling the same option twice gives back the options, when
    sound or light is enabled; with both disabled the second toggle of
    one of them is refused. *)
Theorem toggleOption_twice (key : OptionKey) (prev : PlayOptions) :
  enableSound prev || enableLight prev = true ->
  toggleOption key (toggleOption key prev) = prev.
Proof.
  destruct prev as [[] [] [] []], key; cbn; intros E;
    (reflexivity || discriminate E).
Qed.

Lemma toggleOption_twice_witness :
  enableSound initial_options || enableLight initial_options = true /\
  toggleOption key_enableLight (toggleOption key_enableLight initial_options)
  = initial_options.
Proof.
  split; [reflexivity|].
  apply (toggleOption_twice key_enableLight initial_options). reflexivity.
Defined.

Example toggleOption_twice_both_disabled :
  let prev := {| enableSound := false; enableLight := false;
                 enableVibrate := false; loop := false |} in
  toggleOption key_enableSound (toggleOption key_enableSound prev) <> prev.
Proof. cbn. discriminate. Qed.

End OptionFacts.

(** * App.tsx: the handlers *)

Section HandlerFacts.

Import App.

Context {num : Type} `{JsNumber num} `{JsMathOps num}.

Lemma stopPlayback_twice (page : Page num) :
  stopPlayback (stopPlayback page) = stopPlayback page.
Proof.
  unfold stopPlayback; cbn. destruct (canVibrate page); reflexivity.
Qed.

Lemma stopPlayback_texts (page : Page num) :
  inputMode (stopPlayback page) = inputMode page
  /\ inputText (stopPlayback page) = inputText page
  /\ morseText (stopPlayback page) = morseText page.
Proof. repeat split. Qed.

(** X21: swapping the boxes keeps the string that is played, and swapping
    twice gives the page back as stopping the playback leaves it. *)
Theorem handleSwapMode_twice (page : Page num) :
  stringToPlay (handleSwapMode page) = stringToPlay page
  /\ handleSwapMode (handleSwapMode page) = stopPlayback page.
Proof.
  split.
  - unfold handleSwapMode, stringToPlay.
    destruct (inputMode page) eqn:E; cbn; rewrite ?E; reflexivity.
  - unfold handleSwapMode.
    destruct page as [mode i m c o pb l a r n p g cg v cv vib].
    destruct mode; cbn; destruct cv; reflexivity.
Qed.

Lemma clearTimeout_In (id : nat) (pending : list (nat * (num * Callback num)))
    (t : nat * (num * Callback num)) :
  In t (clearTimeout id pending) -> In t pending /\ fst t <> id.
Proof.
  unfold clearTimeout. rewrite filter_In. intros [Hin Hne]. split; auto.
  intros E. rewrite E, Nat.eqb_refl in Hne. discriminate.
Qed.

Lemma clear_all_In (ids : list nat)
    (pending : list (nat * (num * Callback num)))
    (t : nat * (num * Callback num)) :
  In t (fold_left (fun pending id => clearTimeout id pending) ids pending) ->
  In t pending /\ ~ In (fst t) ids.
Proof.
  revert pending; induction ids as [|id ids IH]; intros pending;
    cbn [fold_left].
  - intros Hin; split; [exact Hin | intros []].
  - intros Hin. apply IH in Hin. destruct Hin as [Hin Hids].
    apply clearTimeout_In in Hin. destruct Hin as [Hin Hne].
    split; [exact Hin|]. intros [E|Hi]; [congruence | auto].
Qed.

Lemma stopPlayback_clears (page : Page num) :
  consistent page ->
  connectedGains (stopPlayback page) = []
  /\ pendingTimeouts (stopPlayback page) = [].
Proof.
  intros [Hg Ht]. split.
  - cbn. rewrite Hg. destruct (activeGainNode page) as [g|]; [|reflexivity].
    cbn. rewrite Nat.eqb_refl. reflexivity.
  - cbn.
    destruct (fold_left (fun pending id => clearTimeout id pending)
                (timeoutRefs page) (pendingTimeouts page)) as [|t l] eqn:E;
      [reflexivity|].
    assert (Hin : In t (fold_left (fun pending id => clearTimeout id pending)
                (timeoutRefs page) (pendingTimeouts page)))
      by (rewrite E; left; reflexivity).
    apply clear_all_In in Hin. destruct Hin as [Hin Hno].
    rewrite Forall_forall in Ht. elim Hno. apply Ht, Hin.
Qed.

Lemma stopPlayback_consistent (page : Page num) :
  consistent page -> consistent (stopPlayback page).
Proof.
  intros Hc. destruct (stopPlayback_clears Hc) as [Hg Ht].
  split; [rewrite Hg; reflexivity | rewrite Ht; constructor].
Qed.

End HandlerFacts.

(** * App.tsx: the playback *)

Section PlaybackFacts.

Import App.

Context {num : Type} `{JsNumber num} `{JsMathOps num}.

Variables (cfg : AppConfig num) (opts : PlayOptions) (sessionGain : nat)
  (clock : nat -> num).

Lemma combine_app_same (A B : Type) (xs xs' : list A) (ys ys' : list B) :
  List.length xs = List.length ys ->
  combine xs ys ++ combine xs' ys' = combine (xs ++ xs') (ys ++ ys').
Proof.
  revert ys; induction xs as [|x xs IH]; intros [|y ys] E;
    try discriminate E; [reflexivity|].
  cbn. f_equal. apply IH. cbn in E. congruence.
Qed.

Local Abbreviation schedule_from :=
  (App.schedule_from cfg opts sessionGain clock).

Lemma schedule_from_cons (k : nat) (event : MorseEvent num)
    (events : list (MorseEvent num)) (s : Scheduling) :
  schedule_from k (event :: events) s
  = schedule_from (S k) events
      (schedule cfg opts sessionGain clock event k s).
Proof. reflexivity. Qed.

Lemma schedule_time (event : MorseEvent num) (k : nat) (s : Scheduling) :
  currentTimeMs (schedule cfg opts sessionGain clock event k s)
  = add (currentTimeMs s) (duration event).
Proof.
  unfold schedule.
  destruct (enableSound opts && is_on event), (is_on event); reflexivity.
Qed.


Lemma schedule_timers (event : MorseEvent num) (k : nat) (s : Scheduling) :
  let new :=
    (currentTimeMs s, event_callback event)
    :: (if is_on event
        then [(add (currentTimeMs s) (duration event),
               light_off_callback num)]
        else []) in
  let s' := schedule cfg opts sessionGain clock event k s in
  s_pendingTimeouts s'
  = s_pendingTimeouts s
    ++ combine (seq (s_nextTimeoutId s) (List.length new)) new
  /\ s_timeoutRefs s'
     = s_timeoutRefs s ++ seq (s_nextTimeoutId s) (List.length new)
  /\ s_nextTimeoutId s' = s_nextTimeoutId s + List.length new.
Proof.
  unfold schedule.
  destruct (enableSound opts && is_on event), (is_on event); cbn;
    rewrite <- ?app_assoc; cbn; repeat split; lia.
Qed.

Lemma schedule_from_timers (events : list (MorseEvent num)) (k : nat)
    (s : Scheduling) :
  let new := timers_of (currentTimeMs s) events in
  let s' := schedule_from k events s in
  s_pendingTimeouts s'
  = s_pendingTimeouts s
    ++ combine (seq (s_nextTimeoutId s) (List.length new)) new
  /\ s_timeoutRefs s'
     = s_timeoutRefs s ++ seq (s_nextTimeoutId s) (List.length new)
  /\ s_nextTimeoutId s' = s_nextTimeoutId s + List.length new.
Proof.
  cbv zeta. revert k s; induction events as [|e events IH]; intros k s.
  - cbn. rewrite !app_nil_r. repeat split; lia.
  - rewrite schedule_from_cons.
    destruct (IH (S k) (schedule cfg opts sessionGain clock e k s))
      as (Hp & Hr & Hn).
    destruct (schedule_timers e k s) as (Hp1 & Hr1 & Hn1).
    rewrite schedule_time in Hp, Hr, Hn.
    rewrite Hp, Hr, Hn, Hp1, Hr1, Hn1. clear.
    cbn [timers_of].
    set (one := (currentTimeMs s, event_callback e)
                :: (if is_on e
                    then [(add (currentTimeMs s) (duration e),
                           light_off_callback num)]
                    else [])).
    set (more := timers_of (add (currentTimeMs s) (duration e)) events).
    change ((currentTimeMs s, event_callback e)
            :: (if is_on e
                then [(add (currentTimeMs s) (duration e),
                       light_off_callback num)]
                else []) ++ more) with (one ++ more).
    rewrite length_app, seq_app, <- !app_assoc.
    repeat split; try lia.
    f_equal. apply combine_app_same, length_seq.
Qed.


End PlaybackFacts.

Section SessionFacts.

Import App.

Context {num : Type} `{JsNumber num} `{JsMathOps num}.

Lemma stopPlayback_stringToPlay (page : Page num) :
  stringToPlay (stopPlayback page) = stringToPlay page.
Proof. reflexivity. Qed.

Lemma playSequence_blank (clock : nat -> num) (page : Page num) :
  JsString.eqb (trim (stringToPlay page)) [] = true ->
  playSequence clock page = stopPlayback page.
Proof.
  intros E. unfold playSequence. rewrite stopPlayback_stringToPlay, E.
  reflexivity.
Qed.

Lemma playSequence_session (clock : nat -> num) (page : Page num) :
  JsString.eqb (trim (stringToPlay page)) [] = false ->
  let stopped := stopPlayback page in
  let events := generateTimingSequence (stringToPlay page) (config page) in
  let s :=
    schedule_from (config page) (options page) (nextGainNode page) clock 0
      events
      {| currentTimeMs := lit 0;
         s_timeoutRefs := [];
         s_nextTimeoutId := nextTimeoutId page;
         s_pendingTimeouts := pendingTimeouts stopped;
         s_voices := voices page |} in
  let s :=
    setTimeout_push (end_callback num)
      (add (totalDurationMs events) (lit 100)) s in
  activeGainNode (playSequence clock page) = Some (nextGainNode page)
  /\ connectedGains (playSequence clock page)
     = connectedGains stopped ++ [nextGainNode page]
  /\ timeoutRefs (playSequence clock page) = s_timeoutRefs s
  /\ pendingTimeouts (playSequence clock page) = s_pendingTimeouts s
  /\ voices (playSequence clock page) = s_voices s
  /\ isPlaying (playback (playSequence clock page)) = true.
Proof.
  intros E. cbv zeta. unfold playSequence.
  rewrite stopPlayback_stringToPlay, E. repeat split.
Qed.

Lemma playSequence_timers_of (clock : nat -> num) (page : Page num) :
  JsString.eqb (trim (stringToPlay page)) [] = false ->
  let events := generateTimingSequence (stringToPlay page) (config page) in
  let timers :=
    timers_of (lit 0) events
    ++ [(add (totalDurationMs events) (lit 100), end_callback num)] in
  let ids := seq (nextTimeoutId page) (List.length timers) in
  timeoutRefs (playSequence clock page) = ids
  /\ pendingTimeouts (playSequence clock page)
     = pendingTimeouts (stopPlayback page) ++ combine ids timers.
Proof.
  intros E. cbv zeta.
  destruct (playSequence_session clock page E) as (_ & _ & Hr & Hp & _).
  rewrite Hr, Hp. clear Hr Hp.
  set (events := generateTimingSequence (stringToPlay page) (config page)).
  set (s0 := {| currentTimeMs := lit 0; s_timeoutRefs := [];
                s_nextTimeoutId := nextTimeoutId page;
                s_pendingTimeouts := pendingTimeouts (stopPlayback page);
                s_voices := voices page |}).
  destruct (schedule_from_timers (config page) (options page)
              (nextGainNode page) clock events 0 s0) as (Hp & Hr & Hn).
  unfold setTimeout_push. cbn [s_timeoutRefs s_pendingTimeouts].
  rewrite Hp, Hr, Hn. cbn [s0 currentTimeMs s_timeoutRefs s_nextTimeoutId
    s_pendingTimeouts app].
  set (new := timers_of (lit 0) events).
  rewrite length_app, seq_app. cbn [List.length seq].
  split; [reflexivity|].
  rewrite <- app_assoc. f_equal.
  rewrite <- combine_app_same by apply length_seq. reflexivity.
Qed.

Lemma playSequence_consistent (clock : nat -> num) (page : Page num) :
  consistent page -> consistent (playSequence clock page).
Proof.
  intros Hc.
  destruct (JsString.eqb (trim (stringToPlay page)) []) eqn:E.
  - rewrite (playSequence_blank clock page E).
    apply stopPlayback_consistent, Hc.
  - destruct (stopPlayback_clears Hc) as [Hg Ht].
    destruct (playSequence_session clock page E) as (Ha & Hcg & _).
    destruct (playSequence_timers_of clock page E) as (Hr & Hp).
    cbv zeta in *. split.
    + rewrite Ha, Hcg, Hg. reflexivity.
    + rewrite Hr, Hp, Ht. cbn [app].
      apply Forall_forall. intros [id t] Hin. cbn [fst].
      apply in_combine_l in Hin. exact Hin.
Qed.

Lemma with_texts_consistent (page : Page num) (mode : InputMode)
    (input morse : jsstring) :
  consistent page -> consistent (with_texts page mode input morse).
Proof. intros Hc; exact Hc. Qed.

Lemma fire_consistent (opts : PlayOptions) (t total : num)
    (callback : Callback num) (page : Page num) :
  consistent page -> consistent (fire opts t total callback page).
Proof.
  intros Hc. destruct callback as [event| |]; cbn [fire].
  - exact Hc.
  - exact Hc.
  - apply stopPlayback_consistent, Hc.
Qed.

Lemma without_timeout_consistent (id : nat) (page : Page num) :
  consistent page -> consistent (without_timeout id page).
Proof.
  intros [Hg Ht]. split; [exact Hg|].
  cbn [pendingTimeouts timeoutRefs without_timeout].
  apply Forall_forall. intros t Hin. apply clearTimeout_In in Hin.
  rewrite Forall_forall in Ht. apply Ht, Hin.
Qed.

Lemma handle_consistent (action : Action) (page : Page num) :
  consistent page -> consistent (handle action page).
Proof.
  intros Hc. destruct action; cbn [handle].
  - destruct (isPlaying (playback page));
      [apply stopPlayback_consistent | apply playSequence_consistent];
      exact Hc.
  - unfold handleSwapMode.
    destruct (inputMode page);
      apply with_texts_consistent, stopPlayback_consistent, Hc.
  - unfold handleMainInputChange.
    destruct (inputMode page);
      apply with_texts_consistent, stopPlayback_consistent, Hc.
  - unfold handleSecondaryDisplayChange.
    destruct (inputMode page);
      apply with_texts_consistent, stopPlayback_consistent, Hc.
  - exact Hc.
  - exact Hc.
  - destruct (find (fun t => fst t =? id) (pendingTimeouts page))
      as [[i [d callback]]|]; [|exact Hc].
    apply fire_consistent, without_timeout_consistent, Hc.
Qed.

Lemma run_consistent (actions : list Action) (page : Page num) :
  consistent page -> consistent (run actions page).
Proof.
  unfold run. revert page.
  induction actions as [|action actions IH]; intros page Hc; [exact Hc|].
  cbn [fold_left]. apply IH, handle_consistent, Hc.
Qed.

Lemma timers_of_length (t : num) (events : list (MorseEvent num)) :
  List.length (timers_of t events)
  = List.length events + List.length (filter is_on events).
Proof.
  revert t; induction events as [|e events IH]; intros t; [reflexivity|].
  cbn [timers_of List.length filter]. rewrite length_app, IH.
  destruct (is_on e); cbn [List.length]; lia.
Qed.

(** X22: however the page is used, stopping the playback disconnects
    every gain node from the destination and leaves no timer pending. *)
Theorem stopPlayback_silences (actions : list Action) (page : Page num) :
  consistent page ->
  let stopped := stopPlayback (run actions page) in
  connectedGains stopped = [] /\ pendingTimeouts stopped = []
  /\ activeGainNode stopped = None /\ timeoutRefs stopped = []
  /\ isPlaying (playback stopped) = false.
Proof.
  intros Hc. cbv zeta.
  destruct (stopPlayback_clears (run_consistent actions Hc)) as [Hg Ht].
  repeat split; assumption.
Qed.

(** X23: however the page is used, at most one session is connected to
    the destination, the one that [stopPlayback] will disconnect, and
    every pending timer is among those that [stopPlayback] will clear. *)
Theorem one_session_at_a_time (actions : list Action) (page : Page num) :
  consistent page ->
  let now := run actions page in
  connectedGains now
  = match activeGainNode now with Some g => [g] | None => [] end
  /\ Forall (fun t => In (fst t) (timeoutRefs now)) (pendingTimeouts now).
Proof. intros Hc. exact (run_consistent actions Hc). Qed.

(** X24: a call of [playSequence] on a string that is not blank sets, for
    each event, a timer due when the event starts and, for a signal, one
    due when it ends, and last the timer of the end of the sequence, due
    100 ms after the whole duration; it remembers exactly these. *)
Theorem playSequence_timers (clock : nat -> num) (page : Page num) :
  consistent page ->
  JsString.eqb (trim (stringToPlay page)) [] = false ->
  let events := generateTimingSequence (stringToPlay page) (config page) in
  let timers :=
    timers_of (lit 0) events
    ++ [(add (totalDurationMs events) (lit 100), end_callback num)] in
  let ids := seq (nextTimeoutId page) (List.length timers) in
  timeoutRefs (playSequence clock page) = ids
  /\ pendingTimeouts (playSequence clock page) = combine ids timers
  /\ List.length timers
     = List.length events + List.length (filter is_on events) + 1.
Proof.
  intros Hc E. cbv zeta.
  destruct (playSequence_timers_of clock page E) as (Hr & Hp).
  destruct (stopPlayback_clears Hc) as [_ Ht].
  cbv zeta in *. rewrite Hr, Hp, Ht.
  split; [reflexivity|]. split; [reflexivity|].
  rewrite length_app, timers_of_length. reflexivity.
Qed.

(** A blank string has no timing sequence. *)
Lemma blank_no_events (morse : jsstring) (cfg : AppConfig num) :
  forallb is_white morse = true -> generateTimingSequence morse cfg = [].
Proof.
  intros Hw. rewrite generateTimingSequence_segments, <- segments_trim.
  rewrite <- (app_nil_r morse), (trim_white_prefix morse [] Hw).
  reflexivity.
Qed.

End SessionFacts.


(** * App.tsx: the playback in exact arithmetic *)

Section ExactPlayback.

Import App.

Open Scope Q_scope.








Section LiveAndSaved.

Variables (cfg : AppConfig Q) (opts : PlayOptions) (sessionGain : nat)
  (c : Q).

Hypothesis sound : enableSound opts = true.



End LiveAndSaved.



(** A dash of the telegraph sound at 20 words per minute lasts 180 ms when
    played and 30 ms in the file. *)
Example telegraph_click_cut_in_file :
  let page : Page Q :=
    with_texts (initial_page exact_telegraph true) morse_mode (str "-")
      (str "T") in
  map (fun v => Qeq_bool (stopTime (voice_oscillator v)
                          - startTime (voice_oscillator v)) (180 # 1000))
    (voices (playSequence (fun _ => 1) page)) = [true]
  /\ map (fun o => Qeq_bool (stopTime o - startTime o) (30 # 1000))
       (oscillators
          (renderAudioToWav_setup (stringToPlay page) (config page)))
     = [true].
Proof. vm_compute. split; reflexivity. Qed.

(** X28: a string of white space alone is not played, [playSequence]
    stopping at once; but saved, if it is not empty, it gives a file
    without any tone, of half a second at 44100 frames a second. *)
Theorem blank_string_played_and_saved (clock : nat -> Q) (page : Page Q) :
  forallb is_white (stringToPlay page) = true ->
  stringToPlay page <> [] ->
  playSequence clock page = stopPlayback page
  /\ exists setup,
       handleSaveAudio page = Some setup
       /\ oscillators setup = [] /\ gainCalls setup = []
       /\ totalFrames setup == 22050.
Proof.
  intros Hw Hne. split.
  - apply playSequence_blank.
    rewrite <- (app_nil_r (stringToPlay page)),
      (trim_white_prefix (stringToPlay page) [] Hw).
    reflexivity.
  - unfold handleSaveAudio. fold (stringToPlay page).
    destruct (stringToPlay page) as [|ch rest] eqn:E; [congruence|].
    eexists. split; [reflexivity|].
    unfold renderAudioToWav_setup.
    rewrite (blank_no_events (ch :: rest) (config page) Hw).
    split; [reflexivity|]. split; [reflexivity|].
    vm_compute. reflexivity.
Qed.

Lemma blank_string_played_and_saved_witness :
  let page : Page Q :=
    with_texts (initial_page exact_20_10 true) text_mode (str " ")
      (str " ") in
  playSequence (fun _ => 0) page = stopPlayback page
  /\ exists setup,
       handleSaveAudio page = Some setup
       /\ oscillators setup = [] /\ gainCalls setup = []
       /\ totalFrames setup == 22050.
Proof.
  apply (@blank_string_played_and_saved (fun _ => 0)
           (with_texts (initial_page exact_20_10 true) text_mode (str " ")
              (str " "))).
  - reflexivity.
  - discriminate.
Defined.

End ExactPlayback.

Section PageWitnesses.

Import App.

Lemma stopPlayback_silences_witness :
  let page : Page Q := initial_page exact_20_10 true in
  let actions :=
    [click_play (fun _ => 0%Q); click_option key_enableLight;
     timer_fires 1 initial_options 0%Q 0%Q; click_swap;
     click_play (fun _ => 2%Q)] in
  consistent page /\
  let stopped := stopPlayback (run actions page) in
  connectedGains stopped = [] /\ pendingTimeouts stopped = []
  /\ activeGainNode stopped = None /\ timeoutRefs stopped = []
  /\ isPlaying (playback stopped) = false.
Proof.
  cbv zeta. split; [split; [reflexivity | constructor]|].
  apply (@stopPlayback_silences Q exact exact_math
           [click_play (fun _ => 0%Q); click_option key_enableLight;
            timer_fires 1 initial_options 0%Q 0%Q; click_swap;
            click_play (fun _ => 2%Q)]
           (initial_page exact_20_10 true)).
  split; [reflexivity | constructor].
Defined.

Lemma one_session_at_a_time_witness :
  let page : Page Q := initial_page exact_20_10 true in
  let actions :=
    [click_play (fun _ => 0%Q); edit_main (str "sos");
     click_play (fun _ => 1%Q); timer_fires 20 initial_options 0%Q 0%Q] in
  consistent page /\
  let now := run actions page in
  connectedGains now
  = match activeGainNode now with Some g => [g] | None => [] end
  /\ Forall (fun t => In (fst t) (timeoutRefs now)) (pendingTimeouts now).
Proof.
  cbv zeta. split; [split; [reflexivity | constructor]|].
  apply (@one_session_at_a_time Q exact exact_math
           [click_play (fun _ => 0%Q); edit_main (str "sos");
            click_play (fun _ => 1%Q); timer_fires 20 initial_options 0%Q 0%Q]
           (initial_page exact_20_10 true)).
  split; [reflexivity | constructor].
Defined.

Lemma playSequence_timers_witness :
  let page : Page Q := initial_page exact_20_10 true in
  let events := generateTimingSequence (stringToPlay page) (config page) in
  let timers :=
    timers_of (lit 0) events
    ++ [(add (totalDurationMs events) (lit 100), end_callback Q)] in
  let ids := seq (nextTimeoutId page) (List.length timers) in
  timeoutRefs (playSequence (fun _ => 0%Q) page) = ids
  /\ pendingTimeouts (playSequence (fun _ => 0%Q) page) = combine ids timers
  /\ List.length timers
     = List.length events + List.length (filter is_on events) + 1.
Proof.
  apply (@playSequence_timers Q exact exact_math (fun _ => 0%Q)
           (initial_page exact_20_10 true)).
  - split; [reflexivity | constructor].
  - vm_compute. reflexivity.
Defined.

End PageWitnesses.

(** * morseService.ts: the audio context helper *)

Section AudioContextFacts.

Import AudioContextHelper.

Lemma getAudioContext_again (st : Module_state) :
  let (ctx, st') := getAudioContext st in
  audioCtx st' = Some ctx /\ getAudioContext st' = (ctx, st').
Proof.
  unfold getAudioContext. destruct (audioCtx st) as [ctx|] eqn:E.
  - rewrite E. split; reflexivity.
  - cbn. split; reflexivity.
Qed.

Lemma calls_of_instance (n : nat) (st : Module_state) (ctx : nat) :
  audioCtx st = Some ctx -> calls n st = (repeat ctx n, st).
Proof.
  intros E. induction n as [|n IH]; [reflexivity|].
  cbn [calls repeat]. unfold getAudioContext. rewrite E, IH. reflexivity.
Qed.

(** X29: however often [getAudioContext] is called, every call returns
    the context of the first call, and at most one context is
    constructed. *)
Theorem getAudioContext_single_instance (n : nat) (st : Module_state) :
  let (first, st1) := getAudioContext st in
  calls n st1 = (repeat first n, st1)
  /\ fst (calls (S n) st) = repeat first (S n)
  /\ constructed (snd (calls (S n) st)) <= S (constructed st).
Proof.
  pose proof (getAudioContext_again st) as Ha.
  cbn [calls]. destruct (getAudioContext st) as [first st1] eqn:E.
  destruct Ha as [Hctx _].
  rewrite (calls_of_instance n st1 Hctx). cbn [fst snd repeat].
  split; [reflexivity|]. split; [reflexivity|].
  unfold getAudioContext in E.
  destruct (audioCtx st); inversion E; subst; cbn; lia.
Qed.

End AudioContextFacts.
